(** * cspaceThreshImg: colorspace thresholding driven by six sliders

    A shallow embedding of [cspaceThreshImg.py] and the properties of its
    bounds calculation, colorspace dispatch and public entry point.

    Modelling conventions.
    - A number is a Python [int] or a Python [float] ([number]). An int
      is kept in the range of NumPy's default integer type, [int64] (on
      Linux and macOS, and everywhere since NumPy 2): [np.array] gives
      any larger int another element type, which is outside this
      model. A float is a [float64] value.
    - [float64] arithmetic is IEEE 754 binary64 with rounding to nearest,
      ties to even ([round64]): a finite value is kept as the rational
      it denotes, next to the two infinities and NaN. The sign of a zero
      is not kept; no bound this program returns can be a negative zero,
      since the last operation adds a minimum that is [+0.0] or [1.0].
    - [int64] arithmetic wraps around modulo [2^64] ([wrap64]), silently,
      as NumPy array arithmetic does.
    - A one-dimensional NumPy array is an [ndarray], a list of elements
      of one element type; [np.array] chooses [int64] when every element
      is an int and [float64] otherwise. What [lowerb[0]] yields is a
      NumPy scalar, kept apart from arrays ([Scalar]).
    - Python dictionaries are [gmap]s; [d[k]] on a missing key raises
      [KeyError k], [d.get(k, v)] falls back to [v].
    - Exceptions are the [Raise] branch of [result]; statements are
      sequenced with the bind of that monad, in source order.
    - [cspace] is a Python [int], a [Z]; on the small integers 0 and 7
      the identity test [is] of the source coincides with equality.
    - The two OpenCV primitives are parameters of the development.
      [cv2.cvtColor] is applied to the caller's image, a BGR image by
      the input invariant, and returns an image; [cv2.inRange] may
      reject the image and bounds it is given with [cv2.error]. *)

From Stdlib Require Import ZArith QArith Qround Qpower Qreduction Qcanon Lqa Lia.
From Stdlib Require SpecFloat.
From stdpp Require Import gmap strings list fin_maps.

Open Scope Q_scope.

(** ** Exceptions and results *)

(** The key carried by a [KeyError]. *)
Inductive key : Type :=
  | KStr (s : string)
  | KInt (n : Z).

Inductive exn : Type :=
  | KeyError (k : key)
  | IndexError
  | CvError.

Inductive result (A : Type) : Type :=
  | Ok (a : A)
  | Raise (e : exn).
Arguments Ok {A} a.
Arguments Raise {A} e.

#[global] Instance result_ret : MRet result := λ A a, Ok a.
#[global] Instance result_bind : MBind result := λ A B f m,
  match m with
  | Ok a => f a
  | Raise e => Raise e
  end.
#[global] Instance result_fmap : FMap result := λ A B f m,
  match m with
  | Ok a => Ok (f a)
  | Raise e => Raise e
  end.

(** [d[k]]: subscript of a dictionary, given the outcome of the lookup. *)
Definition dict_getitem {A} (k : key) (o : option A) : result A :=
  match o with
  | Some a => Ok a
  | None => Raise (KeyError k)
  end.

(** [l[i]] for a non-negative literal index [i]. *)
Definition getitem {A} (l : list A) (i : nat) : result A :=
  match l !! i with
  | Some x => Ok x
  | None => Raise IndexError
  end.

(** ** 64-bit integers *)

Definition in_int64 (z : Z) : bool := ((- 2 ^ 63 <=? z) && (z <? 2 ^ 63))%Z.

(** The value a 64-bit two's complement register holds after an
    operation whose exact result is [z]. *)
Definition wrap64 (z : Z) : Z := ((z + 2 ^ 63) mod 2 ^ 64 - 2 ^ 63)%Z.

Record int64 : Type := Int64 {
  int64_val : Z;
  int64_ok : Is_true (in_int64 int64_val)
}.

(** The [int64] that holds [z]. The second branch is never taken:
    [wrap64 z] is always in range. *)
Definition i64 (z : Z) : int64 :=
  match decide (Is_true (in_int64 (wrap64 z))) with
  | left H => Int64 (wrap64 z) H
  | right _ => Int64 0 I
  end.

Definition i64_mul (a b : int64) : int64 := i64 (int64_val a * int64_val b).
Definition i64_sub (a b : int64) : int64 := i64 (int64_val a - int64_val b).
Definition i64_add (a b : int64) : int64 := i64 (int64_val a + int64_val b).

(** ** Binary64 floating point *)

Inductive float64 : Type :=
  | Fin (q : Q)
  | Inf (neg : bool)
  | NaN.

(** The integer nearest to [x], the even one of the two when [x] lies
    halfway. *)
Definition rne (x : Q) : Z :=
  let f := Qfloor x in
  match Qcompare (x - inject_Z f) (1 # 2) with
  | Lt => f
  | Eq => if Z.even f then f else (f + 1)%Z
  | Gt => (f + 1)%Z
  end.

(** For [x > 0], the integer [k] with [2^k <= x < 2^(k+1)]. *)
Definition ilog2 (x : Q) : Z :=
  let k := (Z.log2 (Qnum x) - Z.log2 (Zpos (Qden x)))%Z in
  if Qle_bool (2 ^ k) x then k else (k - 1)%Z.

(** The exponent of the last place of a binary64 number of the size of
    [x > 0]: 53 significant bits, and no exponent below that of the
    subnormal numbers. *)
Definition fexp (x : Q) : Z := Z.max (ilog2 x - 52) (-1074).

Definition round_pos (x : Q) : Q :=
  inject_Z (rne (x * 2 ^ (- fexp x))) * 2 ^ fexp x.

Definition round_fin (x : Q) : Q :=
  Qred match Qcompare x 0 with
       | Eq => 0
       | Gt => round_pos x
       | Lt => - round_pos (- x)
       end.

(** Rounding to nearest, ties to even, with overflow to infinity. *)
Definition round64 (x : Q) : float64 :=
  let r := round_fin x in
  if Qle_bool (2 ^ 1024) r then Inf false
  else if Qle_bool r (- 2 ^ 1024) then Inf true
  else Fin r.

(** Conversion of an integer to [float64]. *)
Definition flt_of_Z (z : Z) : float64 := round64 (inject_Z z).

Definition flt_mul (x y : float64) : float64 :=
  match x, y with
  | NaN, _ | _, NaN => NaN
  | Fin a, Fin b => round64 (a * b)
  | Inf s, Fin b | Fin b, Inf s =>
      match Qcompare b 0 with
      | Eq => NaN
      | Gt => Inf s
      | Lt => Inf (negb s)
      end
  | Inf s, Inf t => Inf (xorb s t)
  end.

(** A zero divisor is [+0.0]. *)
Definition flt_div (x y : float64) : float64 :=
  match x, y with
  | NaN, _ | _, NaN => NaN
  | Fin a, Fin b =>
      match Qcompare b 0, Qcompare a 0 with
      | Eq, Eq => NaN
      | Eq, Gt => Inf false
      | Eq, Lt => Inf true
      | _, _ => round64 (a / b)
      end
  | Fin _, Inf _ => Fin 0
  | Inf s, Fin b =>
      match Qcompare b 0 with
      | Lt => Inf (negb s)
      | _ => Inf s
      end
  | Inf _, Inf _ => NaN
  end.

Definition flt_add (x y : float64) : float64 :=
  match x, y with
  | NaN, _ | _, NaN => NaN
  | Fin a, Fin b => round64 (a + b)
  | Inf s, Fin _ | Fin _, Inf s => Inf s
  | Inf s, Inf t => if Bool.eqb s t then Inf s else NaN
  end.

Definition flt_opp (x : float64) : float64 :=
  match x with
  | Fin a => Fin (- a)
  | Inf s => Inf (negb s)
  | NaN => NaN
  end.

Definition flt_sub (x y : float64) : float64 := flt_add x (flt_opp y).

(** The comparisons [<=], [<] and [==]; NaN compares with nothing. *)
Definition flt_le (x y : float64) : Prop :=
  match x, y with
  | NaN, _ | _, NaN => False
  | Inf true, _ | _, Inf false => True
  | Fin a, Fin b => a <= b
  | _, _ => False
  end.

Definition flt_lt (x y : float64) : Prop :=
  match x, y with
  | Fin a, Fin b => a < b
  | Inf true, Fin _ | Fin _, Inf false | Inf true, Inf false => True
  | _, _ => False
  end.

Definition flt_eq (x y : float64) : Prop :=
  match x, y with
  | Fin a, Fin b => a == b
  | Inf s, Inf t => s = t
  | _, _ => False
  end.

(** The strict comparison as a test. *)
Definition flt_ltb (x y : float64) : bool :=
  match x, y with
  | Fin a, Fin b => negb (Qle_bool b a)
  | Inf true, Fin _ | Fin _, Inf false | Inf true, Inf false => true
  | _, _ => false
  end.

(** ** Numbers and NumPy values *)

Inductive number : Type :=
  | PInt (n : int64)
  | PFloat (x : float64).

(** The Python int [z], for [z] in the [int64] range. *)
Definition int (z : Z) : number := PInt (i64 z).

(** The value of a number, exactly. *)
Definition num_val (v : number) : float64 :=
  match v with
  | PInt n => Fin (inject_Z (int64_val n))
  | PFloat x => x
  end.

Definition is_int (v : number) : bool :=
  match v with
  | PInt _ => true
  | PFloat _ => false
  end.

Inductive ndarray : Type :=
  | Int64Array (xs : list int64)
  | Float64Array (xs : list float64).

Definition as_int (v : number) : option int64 :=
  match v with
  | PInt n => Some n
  | PFloat _ => None
  end.

(** The conversion of a number to [float64]: an int is rounded. *)
Definition as_float (v : number) : float64 :=
  match v with
  | PInt n => flt_of_Z (int64_val n)
  | PFloat x => x
  end.

(** [np.array(elts)] for a list of numbers: [int64] when all of them
    are ints, [float64] when one is a float or the list is empty. *)
Definition np_array (elts : list number) : ndarray :=
  match elts, mapM as_int elts with
  | _ :: _, Some ns => Int64Array ns
  | _, _ => Float64Array (as_float <$> elts)
  end.

(** The elements of an array converted to [float64]. *)
Definition to_float64 (a : ndarray) : list float64 :=
  match a with
  | Int64Array ns => (λ n, flt_of_Z (int64_val n)) <$> ns
  | Float64Array xs => xs
  end.

(** Elementwise arithmetic on arrays of one shape: in [int64] when both
    arrays are, in [float64] otherwise. Every array the program builds
    has three elements, so [zip_with] never drops a component. *)
Definition np_mul (a b : ndarray) : ndarray :=
  match a, b with
  | Int64Array x, Int64Array y => Int64Array (zip_with i64_mul x y)
  | _, _ => Float64Array (zip_with flt_mul (to_float64 a) (to_float64 b))
  end.

Definition np_sub (a b : ndarray) : ndarray :=
  match a, b with
  | Int64Array x, Int64Array y => Int64Array (zip_with i64_sub x y)
  | _, _ => Float64Array (zip_with flt_sub (to_float64 a) (to_float64 b))
  end.

Definition np_add (a b : ndarray) : ndarray :=
  match a, b with
  | Int64Array x, Int64Array y => Int64Array (zip_with i64_add x y)
  | _, _ => Float64Array (zip_with flt_add (to_float64 a) (to_float64 b))
  end.

(** [a / k] for a Python int [k]: true division, always in [float64]. *)
Definition np_true_divide (a : ndarray) (k : Z) : ndarray :=
  Float64Array ((λ x, flt_div x (flt_of_Z k)) <$> to_float64 a).

(** [a[i]]: the element as a NumPy scalar. *)
Definition nd_getitem (a : ndarray) (i : nat) : result number :=
  match a with
  | Int64Array ns => PInt <$> getitem ns i
  | Float64Array xs => PFloat <$> getitem xs i
  end.

(** What a bound is once [__cspaceBounds] returns: an array, or the
    NumPy scalar obtained by subscripting one. *)
Inductive ndvalue : Type :=
  | Scalar (x : number)
  | Array (a : ndarray).

Definition nd_length (a : ndarray) : nat :=
  match a with
  | Int64Array ns => length ns
  | Float64Array xs => length xs
  end.


(** The value of a bound for channel [c]; a scalar is the bound of the
    only channel. *)
Definition channel (v : ndvalue) (c : nat) : option float64 :=
  match v with
  | Scalar x => match c with O => Some (num_val x) | S _ => None end
  | Array (Int64Array ns) => (λ n, Fin (inject_Z (int64_val n))) <$> ns !! c
  | Array (Float64Array xs) => xs !! c
  end.

(** What [.tolist()] returns: a Python list for an array, a Python
    number for a NumPy scalar. *)
Inductive pyvalue : Type :=
  | PyNum (x : number)
  | PyList (xs : list number).

Definition tolist (v : ndvalue) : pyvalue :=
  match v with
  | Scalar x => PyNum x
  | Array (Int64Array ns) => PyList (PInt <$> ns)
  | Array (Float64Array xs) => PyList (PFloat <$> xs)
  end.

(** ** Colorspace keys and conversion codes *)

Inductive ColorConversionCode : Type :=
  | COLOR_BGR2HSV
  | COLOR_BGR2HLS
  | COLOR_BGR2Lab
  | COLOR_BGR2Luv
  | COLOR_BGR2YCrCb
  | COLOR_BGR2XYZ
  | COLOR_BGR2GRAY.

Definition convert_code : gmap Z ColorConversionCode :=
  {[ 1%Z := COLOR_BGR2HSV;
     2%Z := COLOR_BGR2HLS;
     3%Z := COLOR_BGR2Lab;
     4%Z := COLOR_BGR2Luv;
     5%Z := COLOR_BGR2YCrCb;
     6%Z := COLOR_BGR2XYZ;
     7%Z := COLOR_BGR2GRAY ]}.

Definition min_dict : gmap Z ndarray :=
  {[ 3%Z := np_array [int 0; int 1; int 1] ]}.
Definition max_dict : gmap Z ndarray :=
  {[ 1%Z := np_array [int 180; int 255; int 255];
     2%Z := np_array [int 180; int 255; int 255] ]}.

Definition cspace_dict : gmap string Z :=
  {[ "BGR" := 0%Z; "HSV" := 1%Z; "HLS" := 2%Z; "Lab" := 3%Z;
     "Luv" := 4%Z; "YCrCb" := 5%Z; "XYZ" := 6%Z; "Gray" := 7%Z ]}.

(** ** The bounds calculation *)

Definition __cspaceBounds (cspace : Z) (slider_pos : list number)
  : result (ndvalue * ndvalue) :=
  let mins := default (np_array [int 0; int 0; int 0]) (min_dict !! cspace) in
  let maxs := default (np_array [int 255; int 255; int 255]) (max_dict !! cspace) in
  s0 ← getitem slider_pos 0;
  s2 ← getitem slider_pos 2;
  s4 ← getitem slider_pos 4;
  let lowerb := np_array [s0; s2; s4] in
  s1 ← getitem slider_pos 1;
  s3 ← getitem slider_pos 3;
  s5 ← getitem slider_pos 5;
  let upperb := np_array [s1; s3; s5] in
  let lowerb := np_add (np_true_divide (np_mul lowerb (np_sub maxs mins)) 100) mins in
  let upperb := np_add (np_true_divide (np_mul upperb (np_sub maxs mins)) 100) mins in
  if decide (cspace = 7%Z) then
    l0 ← nd_getitem lowerb 0;
    u0 ← nd_getitem upperb 0;
    mret (Scalar l0, Scalar u0)
  else
    mret (Array lowerb, Array upperb).

(** ** Conversion, thresholding and the entry point *)

Section Pipeline.

(** Images, and the two OpenCV operations the program calls. *)
Variable Image : Type.
Variable cvtColor : Image → ColorConversionCode → Image.
Variable inRange : Image → ndvalue → ndvalue → result Image.

Definition __cspaceSwitch (img : Image) (cspace : Z) : result Image :=
  if decide (cspace = 0%Z) then mret img
  else
    code ← dict_getitem (KInt cspace) (convert_code !! cspace);
    let img := cvtColor img code in
    mret img.

Definition __cspaceRange (img : Image) (cspace : Z) (lowerb upperb : ndvalue)
  : result Image :=
  img ← __cspaceSwitch img cspace;
  bin_img ← inRange img lowerb upperb;
  mret bin_img.

Definition main (img : Image) (cspace_label : string) (slider_pos : list number)
  : result (Image * string * pyvalue * pyvalue) :=
  cspace ← dict_getitem (KStr cspace_label) (cspace_dict !! cspace_label);
  '(lowerb, upperb) ← __cspaceBounds cspace slider_pos;
  bin_img ← __cspaceRange img cspace lowerb upperb;
  let lowerb := tolist lowerb in
  let upperb := tolist upperb in
  mret (bin_img, cspace_label, lowerb, upperb).

End Pipeline.

Arguments __cspaceSwitch {Image} cvtColor img cspace.
Arguments __cspaceRange {Image} cvtColor inRange img cspace lowerb upperb.
Arguments main {Image} cvtColor inRange img cspace_label slider_pos.

(** ** The specification's reading of the bounds calculation *)

#[global] Instance float64_inhabited : Inhabited float64 := populate NaN.
#[global] Instance number_inhabited : Inhabited number := populate (PFloat NaN).

(** The eight colorspace keys of the docstring of [__cspaceSwitch]. *)
Definition in_enumeration (cspace : Z) : Prop := (0 ≤ cspace ≤ 7)%Z.

(** Native per-channel range of a colorspace, as the specification
    tabulates it: Lab has minimum (0,1,1), HSV and HLS have maximum
    (180,255,255), everything else runs from (0,0,0) to (255,255,255). *)
Definition native_min (cspace : Z) : list Z :=
  if decide (cspace = 3%Z) then [0; 1; 1]%Z else [0; 0; 0]%Z.

Definition native_max (cspace : Z) : list Z :=
  if decide (cspace = 1%Z ∨ cspace = 2%Z) then [180; 255; 255]%Z
  else [255; 255; 255]%Z.

(** [bound = raw * (max - min) / 100 + min], each of the three
    operations in [float64]. *)
Definition scale (raw : float64) (mn mx : Z) : float64 :=
  flt_add (flt_div (flt_mul raw (flt_of_Z (mx - mn))) (flt_of_Z 100))
          (flt_of_Z mn).

Definition scale3 (raw : list number) (mn mx : list Z) : list float64 :=
  [ scale (num_val (raw !!! 0%nat)) (mn !!! 0%nat) (mx !!! 0%nat);
    scale (num_val (raw !!! 1%nat)) (mn !!! 1%nat) (mx !!! 1%nat);
    scale (num_val (raw !!! 2%nat)) (mn !!! 2%nat) (mx !!! 2%nat) ].

(** The raw bounds: even slider indices are the low values, odd ones
    the high values, channel by channel. *)
Definition lowerb_raw (slider : list number) : list number :=
  [slider !!! 0%nat; slider !!! 2%nat; slider !!! 4%nat].
Definition upperb_raw (slider : list number) : list number :=
  [slider !!! 1%nat; slider !!! 3%nat; slider !!! 5%nat].

(** The three scaled components of each bound. *)
Definition scaled_lowerb (cspace : Z) (slider : list number) : list float64 :=
  scale3 (lowerb_raw slider) (native_min cspace) (native_max cspace).
Definition scaled_upperb (cspace : Z) (slider : list number) : list float64 :=
  scale3 (upperb_raw slider) (native_min cspace) (native_max cspace).

(** The final step: Grayscale keeps the first component as a scalar,
    every other key keeps the array. *)
Definition collapse (cspace : Z) (b : list float64) : ndvalue :=
  if decide (cspace = 7%Z) then Scalar (PFloat (b !!! 0%nat))
  else Array (Float64Array b).

(** A number every step of the calculation treats exactly: a float, or
    an int that is a [float64] as it stands and whose product with a
    range of at most 255 fits [int64]. *)
Definition small (v : number) : Prop :=
  match v with
  | PInt n => (Z.abs (int64_val n) ≤ 2 ^ 53)%Z
  | PFloat _ => True
  end.

(** The right-hand side of the two scaling assignments, for the three
    raw values of one bound. *)
Definition scaled (mins maxs : ndarray) (raw : list number) : ndarray :=
  np_add (np_true_divide (np_mul (np_array raw) (np_sub maxs mins)) 100) mins.

(** One component of [scaled], computed in the two element types. *)
Definition scaled_int64 (n mn mx : int64) : float64 :=
  flt_add (flt_div (flt_of_Z (int64_val (i64_mul n (i64_sub mx mn))))
                   (flt_of_Z 100))
          (flt_of_Z (int64_val mn)).
Definition scaled_float64 (x : float64) (mn mx : int64) : float64 :=
  flt_add (flt_div (flt_mul x (flt_of_Z (int64_val (i64_sub mx mn))))
                   (flt_of_Z 100))
          (flt_of_Z (int64_val mn)).

(** ** The Standard Library's binary64

    [SpecFloat] is the specification of IEEE 754 arithmetic that the
    Standard Library gives for its primitive floats, on numbers kept as
    sign, mantissa and exponent. The scaling of one component is
    written here with its operations, for 53 bits of precision and
    exponents below 1024, to be compared with [scaled_int64] and
    [scaled_float64]. *)
Definition of_spec_float (x : SpecFloat.spec_float) : float64 :=
  match x with
  | SpecFloat.S754_zero _ => Fin 0
  | SpecFloat.S754_infinity s => Inf s
  | SpecFloat.S754_nan => NaN
  | SpecFloat.S754_finite s m e =>
      Fin (Qred ((if s then -1 else 1) * inject_Z (Zpos m) * 2 ^ e))
  end.

Definition spec_of_Z (z : Z) : SpecFloat.spec_float :=
  SpecFloat.binary_normalize 53 1024 z 0 false.

Definition spec_scaled_int64 (n mn mx : int64) : SpecFloat.spec_float :=
  SpecFloat.SFadd 53 1024
    (SpecFloat.SFdiv 53 1024
       (spec_of_Z (int64_val (i64_mul n (i64_sub mx mn)))) (spec_of_Z 100))
    (spec_of_Z (int64_val mn)).

Definition spec_scaled_float64 (x : SpecFloat.spec_float) (mn mx : int64)
  : SpecFloat.spec_float :=
  SpecFloat.SFadd 53 1024
    (SpecFloat.SFdiv 53 1024
       (SpecFloat.SFmul 53 1024 x (spec_of_Z (int64_val (i64_sub mx mn))))
       (spec_of_Z 100))
    (spec_of_Z (int64_val mn)).

(** Equality of two [float64] values as a test; NaN equals NaN here. *)
Definition flt_same (x y : float64) : bool :=
  match x, y with
  | Fin a, Fin b => Qeq_bool a b
  | Inf s, Inf t => Bool.eqb s t
  | NaN, NaN => true
  | _, _ => false
  end.

(** The ints on which the two are compared: the slider scale with a
    margin on both sides, and large values, some of which wrap. *)
Definition sample_ints : list Z :=
  (seqZ (-50) 300
   ++ [2 ^ 53; 2 ^ 53 + 1; 10 ^ 16; 10 ^ 16 + 1; 2 ^ 56; - 2 ^ 57; 2 ^ 62;
       2 ^ 63 - 1; - 2 ^ 63])%Z.

Definition agrees_on (mn mx z : Z) : bool :=
  flt_same (of_spec_float (spec_scaled_int64 (i64 z) (i64 mn) (i64 mx)))
           (scaled_int64 (i64 z) (i64 mn) (i64 mx))
  && flt_same (of_spec_float (spec_scaled_float64 (spec_of_Z z) (i64 mn) (i64 mx)))
              (scaled_float64 (flt_of_Z z) (i64 mn) (i64 mx)).

(** Whether each position [z] of a list scales strictly below the next
    position [z + 1]. *)
Definition steps_up (mn mx : Z) (zs : list Z) : bool :=
  forallb (λ z, flt_ltb (scale (Fin (inject_Z z)) mn mx)
                        (scale (Fin (inject_Z (z + 1))) mn mx)) zs.

(** The eight names the entry point is specified to accept. *)
Definition recognized : gset string :=
  {[ "BGR"; "HSV"; "HLS"; "Lab"; "Luv"; "YCrCb"; "XYZ"; "Gray" ]}.

(** A range test that accepts every image and every pair of bounds. *)
Definition accepting {Image : Type} (inRange : Image → ndvalue → ndvalue → Image)
  : Image → ndvalue → ndvalue → result Image :=
  λ img lowerb upperb, Ok (inRange img lowerb upperb).

(** ** A symbolic instance of the OpenCV parameters

    Images as terms that record which primitive was applied to what;
    used to run the entry point on concrete inputs. *)
Inductive trace : Type :=
  | Input
  | Converted (img : trace) (code : ColorConversionCode)
  | Thresholded (img : trace) (lowerb upperb : ndvalue).

Arguments round64 : simpl never.
Arguments flt_of_Z : simpl never.
Arguments flt_mul : simpl never.
Arguments flt_div : simpl never.
Arguments flt_add : simpl never.
Arguments scale : simpl never.
Arguments i64 : simpl never.

(** Evaluation of a closed side condition. *)
Ltac by_evaluation := vm_compute; first [exact I | reflexivity | discriminate].

(** * Properties *)

(** ** 64-bit integers *)

Lemma in_int64_spec (z : Z) : Is_true (in_int64 z) ↔ (- 2 ^ 63 ≤ z < 2 ^ 63)%Z.
Proof.
  unfold in_int64. rewrite andb_True, !Is_true_true, Z.leb_le, Z.ltb_lt. done.
Qed.

Lemma wrap64_range (z : Z) : (- 2 ^ 63 ≤ wrap64 z < 2 ^ 63)%Z.
Proof.
  unfold wrap64.
  pose proof (Z.mod_pos_bound (z + 2 ^ 63) (2 ^ 64) ltac:(lia)). lia.
Qed.

Lemma wrap64_small (z : Z) : (- 2 ^ 63 ≤ z < 2 ^ 63)%Z → wrap64 z = z.
Proof. intros Hz. unfold wrap64. rewrite Z.mod_small by lia. lia. Qed.

Lemma int64_val_i64 (z : Z) : int64_val (i64 z) = wrap64 z.
Proof.
  unfold i64. destruct (decide _) as [H|H]; [reflexivity|].
  destruct H. apply in_int64_spec, wrap64_range.
Qed.

Lemma int64_val_small (z : Z) : (- 2 ^ 63 ≤ z < 2 ^ 63)%Z → int64_val (i64 z) = z.
Proof. intros Hz. by rewrite int64_val_i64, wrap64_small. Qed.

(** ** Rounding to binary64 *)

Lemma rne_mono x y : x <= y → (rne x <= rne y)%Z.
Proof.
  intros Hxy. unfold rne.
  pose proof (Qfloor_resp_le x y Hxy) as Hf.
  destruct (Z.eq_dec (Qfloor x) (Qfloor y)) as [Heq|Hne].
  - rewrite <- Heq.
    destruct (Qcompare_spec (x - inject_Z (Qfloor x)) (1 # 2)) as [Hx|Hx|Hx];
      destruct (Qcompare_spec (y - inject_Z (Qfloor x)) (1 # 2)) as [Hy|Hy|Hy];
      destruct (Z.even (Qfloor x)); first [lia | lra].
  - destruct (Qcompare (x - inject_Z (Qfloor x)) (1 # 2));
      destruct (Qcompare (y - inject_Z (Qfloor y)) (1 # 2));
      destruct (Z.even (Qfloor x)); destruct (Z.even (Qfloor y)); lia.
Qed.

Lemma rne_Z (n : Z) : rne (inject_Z n) = n.
Proof.
  unfold rne. rewrite Qfloor_Z.
  destruct (Qcompare_spec (inject_Z n - inject_Z n) (1 # 2)); [lra|reflexivity|lra].
Qed.

#[global] Instance rne_proper : Proper (Qeq ==> eq) rne.
Proof.
  intros x y Hxy. unfold rne.
  rewrite (Qfloor_comp x y Hxy).
  by rewrite (Qcompare_comp (x - inject_Z (Qfloor y)) (y - inject_Z (Qfloor y))
               ltac:(lra) (1 # 2) (1 # 2) ltac:(lra)).
Qed.

Lemma pow2_pos (k : Z) : 0 < 2 ^ k.
Proof. by apply Qpower_0_lt. Qed.

Lemma pow2_add (a b : Z) : 2 ^ (a + b) == 2 ^ a * 2 ^ b.
Proof. by apply Qpower_plus. Qed.

Lemma pow2_Z (a : Z) : (0 ≤ a)%Z → 2 ^ a == inject_Z (2 ^ a).
Proof. intros Ha. by rewrite Zpower_Qpower. Qed.

Lemma pow2_le (a b : Z) : (a ≤ b)%Z → 2 ^ a <= 2 ^ b.
Proof. intros Hab. by apply Qpower_le_compat_l. Qed.

Lemma pow2_lt_inv (a b : Z) : 2 ^ a < 2 ^ b → (a < b)%Z.
Proof. intros Hab. by apply (Qpower_lt_compat_l_inv 2). Qed.

Lemma ilog2_spec x : 0 < x → 2 ^ ilog2 x <= x ∧ x < 2 ^ (ilog2 x + 1).
Proof.
  intros Hx. unfold ilog2.
  destruct x as [n d]. cbn [Qnum Qden].
  assert (0 < n)%Z as Hn by (unfold Qlt in Hx; cbn in Hx; lia).
  pose proof (Z.log2_spec n Hn) as [Hn1 Hn2].
  pose proof (Z.log2_spec (Zpos d) ltac:(lia)) as [Hd1 Hd2].
  pose proof (Z.log2_nonneg n) as Ha. pose proof (Z.log2_nonneg (Zpos d)) as Hb.
  set (a := Z.log2 n) in *. set (b := Z.log2 (Zpos d)) in *.
  assert (n # d == inject_Z n / inject_Z (Zpos d)) as Hq by apply Qmake_Qdiv.
  rewrite <- Z.add_1_r in Hn2, Hd2.
  rewrite Zle_Qle in Hn1, Hd1. rewrite Zlt_Qlt in Hn2, Hd2.
  rewrite <- !pow2_Z in * by lia.
  set (N := inject_Z n) in *. set (D := inject_Z (Zpos d)) in *.
  assert (0 < D) as HD by (pose proof (pow2_pos b); lra).
  assert ((n # d) * D == N) as Hmul by (rewrite Hq; field; lra).
  pose proof (pow2_pos (a - b)) as P0.
  assert (2 ^ (a - b + 1) * 2 ^ b == 2 ^ (a + 1)) as E1.
  { rewrite <- pow2_add. by replace (a - b + 1 + b)%Z with (a + 1)%Z by lia. }
  assert (2 ^ (a - b - 1) * 2 ^ (b + 1) == 2 ^ a) as E2.
  { rewrite <- pow2_add. by replace (a - b - 1 + (b + 1))%Z with a by lia. }
  assert (2 ^ (a - b - 1 + 1) == 2 ^ (a - b)) as E3.
  { by replace (a - b - 1 + 1)%Z with (a - b)%Z by lia. }
  pose proof (pow2_pos (a - b + 1)) as P1. pose proof (pow2_pos (a - b - 1)) as P2.
  pose proof (pow2_pos b) as P3. pose proof (pow2_pos (b + 1)) as P4.
  destruct (Qle_bool (2 ^ (a - b)) (n # d)) eqn:Hle.
  - apply Qle_bool_iff in Hle. split; [exact Hle|].
    destruct (Qlt_le_dec (n # d) (2 ^ (a - b + 1))) as [|Hge]; [assumption|].
    exfalso. nra.
  - assert (n # d < 2 ^ (a - b)) as Hlt.
    { destruct (Qlt_le_dec (n # d) (2 ^ (a - b))) as [|Hge]; [assumption|].
      apply Qle_bool_iff in Hge. congruence. }
    rewrite E3. split; [|exact Hlt].
    destruct (Qlt_le_dec (n # d) (2 ^ (a - b - 1))) as [Hlt'|]; [|assumption].
    exfalso. nra.
Qed.

Lemma ilog2_unique x k : 2 ^ k <= x → x < 2 ^ (k + 1) → ilog2 x = k.
Proof.
  intros H1 H2.
  assert (0 < x) as Hx by (pose proof (pow2_pos k); lra).
  destruct (ilog2_spec x Hx) as [H3 H4].
  assert (2 ^ k < 2 ^ (ilog2 x + 1)) as H5 by lra.
  assert (2 ^ ilog2 x < 2 ^ (k + 1)) as H6 by lra.
  apply pow2_lt_inv in H5, H6. lia.
Qed.

Lemma ilog2_mono x y : 0 < x → x <= y → (ilog2 x ≤ ilog2 y)%Z.
Proof.
  intros Hx Hxy.
  destruct (ilog2_spec x Hx) as [H1 _].
  destruct (ilog2_spec y ltac:(lra)) as [_ H2].
  assert (2 ^ ilog2 x < 2 ^ (ilog2 y + 1)) as H by lra.
  apply pow2_lt_inv in H. lia.
Qed.

Lemma ilog2_proper x y : 0 < x → x == y → ilog2 x = ilog2 y.
Proof.
  intros Hx Hxy. symmetry.
  destruct (ilog2_spec x Hx) as [H1 H2].
  apply ilog2_unique; lra.
Qed.

Lemma pow2_inv (e : Z) : 2 ^ e * 2 ^ (- e) == 1.
Proof. rewrite <- pow2_add. by replace (e + - e)%Z with 0%Z by lia. Qed.

Lemma round_pos_upper x (a : Z) :
  0 < x → x < 2 ^ (a + 53) → (fexp x ≤ a)%Z → round_pos x <= 2 ^ (a + 53).
Proof.
  intros Hx Hlt He. unfold round_pos.
  set (e := fexp x) in *.
  destruct (ilog2_spec x Hx) as [_ Hup].
  assert (ilog2 x + 1 ≤ e + 53)%Z as Hl by (unfold e, fexp; lia).
  assert (x < 2 ^ (e + 53)) as Hx'.
  { eapply Qlt_le_trans; [exact Hup|]. by apply pow2_le. }
  assert (x * 2 ^ (- e) <= inject_Z (2 ^ 53)) as Hm.
  { rewrite <- pow2_Z by lia.
    pose proof (pow2_pos (- e)) as P. pose proof (pow2_pos e) as P'.
    pose proof (pow2_add e 53) as E. pose proof (pow2_inv e) as I.
    nra. }
  apply rne_mono in Hm. rewrite rne_Z in Hm. rewrite Zle_Qle in Hm.
  rewrite <- pow2_Z in Hm by lia.
  pose proof (pow2_pos e) as P'.
  apply Qle_trans with (2 ^ (e + 53)); [|by apply pow2_le; lia].
  rewrite (Z.add_comm e 53), pow2_add. nra.
Qed.

Lemma round_pos_lower x (b : Z) :
  0 < x → 2 ^ (b + 52) <= x → (fexp x ≤ b)%Z → 2 ^ (b + 52) <= round_pos x.
Proof.
  intros Hx Hle He. unfold round_pos.
  set (e := fexp x) in *.
  assert (inject_Z (2 ^ (b - e + 52)) <= x * 2 ^ (- e)) as Hm.
  { rewrite <- pow2_Z by lia.
    replace (b - e + 52)%Z with ((b + 52) + - e)%Z by lia. rewrite pow2_add.
    pose proof (pow2_pos (- e)) as P. nra. }
  apply rne_mono in Hm. rewrite rne_Z in Hm. rewrite Zle_Qle in Hm.
  rewrite <- pow2_Z in Hm by lia.
  pose proof (pow2_pos e) as P'.
  assert (2 ^ (b + 52) == 2 ^ (b - e + 52) * 2 ^ e) as ->.
  { rewrite <- pow2_add. by replace (b - e + 52 + e)%Z with (b + 52)%Z by lia. }
  nra.
Qed.

Lemma round_pos_mono x y : 0 < x → x <= y → round_pos x <= round_pos y.
Proof.
  intros Hx Hxy.
  assert (0 < y) as Hy by lra.
  pose proof (ilog2_mono x y Hx Hxy) as Hl.
  destruct (Z.eq_dec (fexp x) (fexp y)) as [Heq|Hne].
  - unfold round_pos. rewrite Heq.
    pose proof (pow2_pos (fexp y)) as P. pose proof (pow2_pos (- fexp y)) as P'.
    assert (x * 2 ^ (- fexp y) <= y * 2 ^ (- fexp y)) as Hm by nra.
    apply rne_mono in Hm. rewrite Zle_Qle in Hm. nra.
  - assert (fexp x < fexp y)%Z as Hlt by (unfold fexp in *; lia).
    assert (fexp y = ilog2 y - 52)%Z as Hy' by (unfold fexp in *; lia).
    destruct (ilog2_spec y Hy) as [Hlow _].
    destruct (ilog2_spec x Hx) as [_ Hup].
    apply Qle_trans with (2 ^ (fexp y - 1 + 53)).
    + apply round_pos_upper; [assumption| |lia].
      eapply Qlt_le_trans; [exact Hup|]. apply pow2_le. unfold fexp in *. lia.
    + replace (fexp y - 1 + 53)%Z with (fexp y + 52)%Z by lia.
      apply round_pos_lower; [assumption| |lia].
      by replace (fexp y + 52)%Z with (ilog2 y) by lia.
Qed.

Lemma round_pos_nonneg x : 0 < x → 0 <= round_pos x.
Proof.
  intros Hx. unfold round_pos.
  pose proof (pow2_pos (fexp x)) as P. pose proof (pow2_pos (- fexp x)) as P'.
  assert (inject_Z 0 <= x * 2 ^ (- fexp x)) as Hm by (change (inject_Z 0) with 0; nra).
  apply rne_mono in Hm. rewrite rne_Z in Hm. rewrite Zle_Qle in Hm.
  change (inject_Z 0) with 0 in Hm. nra.
Qed.

Lemma round_fin_mono x y : x <= y → round_fin x <= round_fin y.
Proof.
  intros Hxy. unfold round_fin. apply Qred_le.
  destruct (Qcompare_spec x 0) as [Hx|Hx|Hx];
    destruct (Qcompare_spec y 0) as [Hy|Hy|Hy]; try lra.
  - by apply round_pos_nonneg.
  - pose proof (round_pos_nonneg (- x) ltac:(lra)). lra.
  - pose proof (round_pos_mono (- y) (- x) ltac:(lra) ltac:(lra)). lra.
  - pose proof (round_pos_nonneg (- x) ltac:(lra)).
    pose proof (round_pos_nonneg y Hy). lra.
  - by apply round_pos_mono.
Qed.

Lemma round_pos_proper x y : 0 < x → x == y → round_pos x == round_pos y.
Proof.
  intros Hx Hxy. unfold round_pos, fexp.
  rewrite <- (ilog2_proper x y Hx Hxy).
  set (e := Z.max (ilog2 x - 52) (-1074)).
  assert (x * 2 ^ (- e) == y * 2 ^ (- e)) as H by (rewrite Hxy; reflexivity).
  by rewrite (rne_proper _ _ H).
Qed.

Lemma round_fin_proper x y : x == y → round_fin x = round_fin y.
Proof.
  intros Hxy. unfold round_fin. apply Qred_complete.
  rewrite <- (Qcompare_comp x y Hxy 0 0 ltac:(reflexivity)).
  destruct (Qcompare_spec x 0) as [Hx|Hx|Hx]; [reflexivity| |].
  - apply Qopp_comp. apply round_pos_proper; lra.
  - by apply round_pos_proper.
Qed.

Lemma round_fin_Z (z : Z) : (Z.abs z ≤ 2 ^ 53)%Z → round_fin (inject_Z z) = inject_Z z.
Proof.
  intros Hz.
  assert (∀ n : Z, (0 < n ≤ 2 ^ 53)%Z → round_pos (inject_Z n) == inject_Z n) as Hpos.
  { intros n [Hn0 Hn].
    destruct (Z.eq_dec n (2 ^ 53)%Z) as [->|Hne]; [reflexivity|].
    assert (0 < inject_Z n) as Hq by (change 0 with (inject_Z 0); rewrite <- Zlt_Qlt; lia).
    destruct (ilog2_spec _ Hq) as [Hlow _].
    assert (2 ^ ilog2 (inject_Z n) < 2 ^ 53) as Hl.
    { eapply Qle_lt_trans; [exact Hlow|]. rewrite (pow2_Z 53) by lia.
      rewrite <- Zlt_Qlt. lia. }
    apply pow2_lt_inv in Hl.
    unfold round_pos. set (e := fexp (inject_Z n)).
    assert (-1074 ≤ e ≤ 0)%Z as He by (unfold e, fexp; lia).
    assert (inject_Z n * 2 ^ (- e) == inject_Z (n * 2 ^ (- e))) as Hm.
    { rewrite inject_Z_mult, <- pow2_Z by lia. reflexivity. }
    rewrite (rne_proper _ _ Hm), rne_Z, inject_Z_mult, <- pow2_Z by lia.
    pose proof (pow2_inv e) as I. rewrite <- Qmult_assoc, (Qmult_comm (2 ^ (- e))), I. ring. }
  unfold round_fin.
  transitivity (Qred (inject_Z z));
    [apply Qred_complete | apply Qred_identity; cbn; apply Z.gcd_1_r].
  destruct (Qcompare_spec (inject_Z z) 0) as [H|H|H].
  - by rewrite H.
  - change 0 with (inject_Z 0) in H. rewrite <- Zlt_Qlt in H.
    rewrite <- inject_Z_opp, Hpos by lia. rewrite inject_Z_opp. ring.
  - change 0 with (inject_Z 0) in H. rewrite <- Zlt_Qlt in H.
    apply Hpos. lia.
Qed.

Lemma round64_Z (z : Z) : (Z.abs z ≤ 2 ^ 53)%Z → round64 (inject_Z z) = Fin (inject_Z z).
Proof.
  intros Hz. unfold round64. rewrite round_fin_Z by exact Hz.
  assert (- inject_Z (2 ^ 53) <= inject_Z z <= inject_Z (2 ^ 53)) as [H1 H2].
  { rewrite <- inject_Z_opp, <- !Zle_Qle. lia. }
  assert (inject_Z (2 ^ 53) < 2 ^ 1024) as H3 by reflexivity.
  destruct (Qle_bool (2 ^ 1024) (inject_Z z)) eqn:E1.
  { apply Qle_bool_iff in E1. lra. }
  destruct (Qle_bool (inject_Z z) (- 2 ^ 1024)) eqn:E2.
  { apply Qle_bool_iff in E2. lra. }
  reflexivity.
Qed.

Lemma round64_proper x y : x == y → round64 x = round64 y.
Proof. intros Hxy. unfold round64. by rewrite (round_fin_proper x y Hxy). Qed.

Lemma round64_mono x y : x <= y → flt_le (round64 x) (round64 y).
Proof.
  intros Hxy. apply round_fin_mono in Hxy. unfold round64.
  assert (0 < 2 ^ 1024) as P by apply pow2_pos.
  destruct (Qle_bool (2 ^ 1024) (round_fin x)) eqn:E1;
    destruct (Qle_bool (round_fin x) (- 2 ^ 1024)) eqn:E2;
    destruct (Qle_bool (2 ^ 1024) (round_fin y)) eqn:E3;
    destruct (Qle_bool (round_fin y) (- 2 ^ 1024)) eqn:E4;
    try apply Qle_bool_iff in E1; try apply Qle_bool_iff in E2;
    try apply Qle_bool_iff in E3; try apply Qle_bool_iff in E4;
    cbn; try exact I; try lra.
  all: try (assert (¬ 2 ^ 1024 <= round_fin y) by (rewrite <- Qle_bool_iff; congruence); lra).
  all: try (assert (¬ round_fin x <= - 2 ^ 1024) by (rewrite <- Qle_bool_iff; congruence); lra).
Qed.

Lemma round64_not_NaN x : round64 x ≠ NaN.
Proof. unfold round64. by repeat case_match. Qed.

(** ** The order on [float64] *)

Lemma flt_le_refl x : x ≠ NaN → flt_le x x.
Proof. destruct x as [a|[]|]; cbn; [lra|done|done|congruence]. Qed.

Lemma flt_le_trans x y z : flt_le x y → flt_le y z → flt_le x z.
Proof.
  destruct x as [a|[]|], y as [b|[]|], z as [c|[]|]; cbn; try done. lra.
Qed.

Lemma flt_le_antisym x y : flt_le x y → flt_le y x → flt_eq x y.
Proof. destruct x as [a|[]|], y as [b|[]|]; cbn; try done. lra. Qed.

Lemma flt_lt_le_trans x y z : flt_lt x y → flt_le y z → flt_lt x z.
Proof.
  destruct x as [a|[]|], y as [b|[]|], z as [c|[]|]; cbn; try done. lra.
Qed.

Lemma flt_le_lt_trans x y z : flt_le x y → flt_lt y z → flt_lt x z.
Proof.
  destruct x as [a|[]|], y as [b|[]|], z as [c|[]|]; cbn; try done. lra.
Qed.

Lemma flt_lt_not_eq x y : flt_lt x y → ¬ flt_eq x y.
Proof.
  destruct x as [a|[]|], y as [b|[]|]; cbn; try done; first [lra | congruence].
Qed.

Lemma flt_le_Inf x : x ≠ NaN → flt_le (Inf true) x ∧ flt_le x (Inf false).
Proof. destruct x as [a|[]|]; cbn; done. Qed.

(** ** Monotonicity of the three operations of the scaling *)

Lemma flt_mul_mono x y (r : Q) :
  0 < r → flt_le x y → flt_le (flt_mul x (Fin r)) (flt_mul y (Fin r)).
Proof.
  intros Hr Hxy. unfold flt_mul.
  destruct (Qcompare_spec r 0) as [H|H|H]; [lra|lra|].
  destruct x as [a|[]|], y as [b|[]|]; cbn in Hxy; try done;
    try (apply flt_le_Inf, round64_not_NaN).
  apply round64_mono. nra.
Qed.

Lemma flt_div_mono x y (d : Q) :
  0 < d → flt_le x y → flt_le (flt_div x (Fin d)) (flt_div y (Fin d)).
Proof.
  intros Hd Hxy. unfold flt_div.
  destruct (Qcompare_spec d 0) as [H|H|H]; [lra|lra|].
  destruct x as [a|[]|], y as [b|[]|]; cbn in Hxy; try done;
    try (apply flt_le_Inf, round64_not_NaN).
  apply round64_mono. unfold Qdiv.
  assert (0 < / d) by (by apply Qinv_lt_0_compat). nra.
Qed.

Lemma flt_add_mono x y (c : Q) :
  flt_le x y → flt_le (flt_add x (Fin c)) (flt_add y (Fin c)).
Proof.
  intros Hxy. unfold flt_add.
  destruct x as [a|[]|], y as [b|[]|]; cbn in Hxy; try done;
    try (apply flt_le_Inf, round64_not_NaN).
  apply round64_mono. lra.
Qed.

Lemma flt_of_Z_small (z : Z) : (Z.abs z ≤ 2 ^ 53)%Z → flt_of_Z z = Fin (inject_Z z).
Proof. apply round64_Z. Qed.

(** The scaling never decreases in the raw value, on a range that is
    not empty. *)
Lemma scale_mono x y (mn mx : Z) :
  (0 < mx - mn ≤ 2 ^ 53)%Z → (Z.abs mn ≤ 2 ^ 53)%Z →
  flt_le x y → flt_le (scale x mn mx) (scale y mn mx).
Proof.
  intros Hr Hmn Hxy. unfold scale.
  rewrite !flt_of_Z_small by lia.
  apply flt_add_mono, flt_div_mono; [reflexivity|].
  apply flt_mul_mono; [|exact Hxy].
  change 0 with (inject_Z 0). rewrite <- Zlt_Qlt. lia.
Qed.

(** ** The dictionaries against the specification's table *)

Lemma mins_native cspace :
  default (np_array [int 0; int 0; int 0]) (min_dict !! cspace)
  = Int64Array (i64 <$> native_min cspace).
Proof.
  unfold min_dict, native_min. case_decide as Hc.
  - subst cspace. by rewrite lookup_singleton_eq.
  - by rewrite lookup_singleton_ne.
Qed.

Lemma maxs_native cspace :
  default (np_array [int 255; int 255; int 255]) (max_dict !! cspace)
  = Int64Array (i64 <$> native_max cspace).
Proof.
  unfold max_dict, native_max. case_decide as Hc.
  - destruct Hc as [-> | ->]; reflexivity.
  - rewrite lookup_insert_ne, lookup_singleton_ne by naive_solver. reflexivity.
Qed.

Lemma native_min_length cspace : length (native_min cspace) = 3%nat.
Proof. unfold native_min. by case_decide. Qed.

Lemma native_max_length cspace : length (native_max cspace) = 3%nat.
Proof. unfold native_max. by case_decide. Qed.

(** Channel by channel the native minimum is 0 or 1 and lies strictly
    below the maximum, which is at most 255. *)
Lemma native_range cspace (ch : nat) (mn mx : Z) :
  native_min cspace !! ch = Some mn →
  native_max cspace !! ch = Some mx →
  (0 ≤ mn ≤ 1 ∧ mn < mx ≤ 255)%Z.
Proof.
  unfold native_min, native_max. intros Hmn Hmx.
  repeat case_decide;
    (destruct ch as [|[|[|?]]]; simplify_eq/=; lia).
Qed.

(** ** One scaled component *)

Lemma scaled_int64_small (n : int64) (mn mx : Z) :
  (Z.abs (int64_val n) ≤ 2 ^ 53)%Z →
  (0 ≤ mn ≤ 1 ∧ mn < mx ≤ 255)%Z →
  scaled_int64 n (i64 mn) (i64 mx) = scale (Fin (inject_Z (int64_val n))) mn mx.
Proof.
  intros Hn Hr. unfold scaled_int64, scale, i64_mul, i64_sub.
  rewrite !(int64_val_small mn), !(int64_val_small mx) by lia.
  rewrite (int64_val_small (mx - mn)) by lia.
  rewrite (int64_val_small (int64_val n * (mx - mn))) by nia.
  do 2 f_equal.
  rewrite (flt_of_Z_small (mx - mn)) by lia.
  unfold flt_of_Z, flt_mul. apply round64_proper.
  by rewrite inject_Z_mult.
Qed.

Lemma scaled_float64_small (v : number) (mn mx : Z) :
  small v →
  (0 ≤ mn ≤ 1 ∧ mn < mx ≤ 255)%Z →
  scaled_float64 (as_float v) (i64 mn) (i64 mx) = scale (num_val v) mn mx.
Proof.
  intros Hv Hr. unfold scaled_float64, scale, i64_sub.
  rewrite !(int64_val_small mn), !(int64_val_small mx) by lia.
  rewrite (int64_val_small (mx - mn)) by lia.
  do 3 f_equal.
  destruct v as [n|x]; [|reflexivity].
  cbn in *. by apply flt_of_Z_small.
Qed.

(** ** The scaled array *)

(** The two ways [scaled] runs: in [int64] up to the division when the
    three raw values are ints, in [float64] throughout otherwise. *)
Lemma scaled_all_int (n0 n1 n2 mn0 mn1 mn2 mx0 mx1 mx2 : int64) :
  scaled (Int64Array [mn0; mn1; mn2]) (Int64Array [mx0; mx1; mx2])
         [PInt n0; PInt n1; PInt n2]
  = Float64Array [scaled_int64 n0 mn0 mx0; scaled_int64 n1 mn1 mx1;
                  scaled_int64 n2 mn2 mx2].
Proof. reflexivity. Qed.

Lemma scaled_some_float (a b c : number) (mn0 mn1 mn2 mx0 mx1 mx2 : int64) :
  is_int a && is_int b && is_int c = false →
  scaled (Int64Array [mn0; mn1; mn2]) (Int64Array [mx0; mx1; mx2]) [a; b; c]
  = Float64Array [scaled_float64 (as_float a) mn0 mx0;
                  scaled_float64 (as_float b) mn1 mx1;
                  scaled_float64 (as_float c) mn2 mx2].
Proof. destruct a, b, c; first [discriminate | reflexivity]. Qed.

(** Whatever the three raw values are, [scaled] on a key's range is a
    [float64] array of three components, and the component of a small
    raw value is its scaling on the native range of the channel. *)
Lemma scaled_native cspace (a b c : number) :
  ∃ x0 x1 x2,
    scaled (Int64Array (i64 <$> native_min cspace))
           (Int64Array (i64 <$> native_max cspace)) [a; b; c]
    = Float64Array [x0; x1; x2] ∧
    ∀ (ch : nat) v mn mx,
      [a; b; c] !! ch = Some v →
      native_min cspace !! ch = Some mn →
      native_max cspace !! ch = Some mx →
      small v →
      [x0; x1; x2] !! ch = Some (scale (num_val v) mn mx).
Proof.
  pose proof (native_range cspace) as Hrange.
  destruct (native_min cspace) as [|mn0 [|mn1 [|mn2 [|]]]] eqn:Emn;
    try (pose proof (native_min_length cspace) as HL; rewrite Emn in HL;
         discriminate HL).
  destruct (native_max cspace) as [|mx0 [|mx1 [|mx2 [|]]]] eqn:Emx;
    try (pose proof (native_max_length cspace) as HL; rewrite Emx in HL;
         discriminate HL).
  pose proof (Hrange 0%nat mn0 mx0 eq_refl eq_refl) as R0.
  pose proof (Hrange 1%nat mn1 mx1 eq_refl eq_refl) as R1.
  pose proof (Hrange 2%nat mn2 mx2 eq_refl eq_refl) as R2.
  cbn [fmap list_fmap].
  destruct (is_int a && is_int b && is_int c) eqn:Eint.
  - destruct a as [n0|], b as [n1|], c as [n2|]; try discriminate Eint.
    rewrite scaled_all_int. eexists _, _, _. split; [reflexivity|].
    intros [|[|[|ch]]] v mn mx Hv Hmn Hmx Hs; simplify_eq/=;
      f_equal; by apply scaled_int64_small.
  - rewrite scaled_some_float by exact Eint.
    eexists _, _, _. split; [reflexivity|].
    intros [|[|[|ch]]] v mn mx Hv Hmn Hmx Hs; simplify_eq/=;
      f_equal; by apply scaled_float64_small.
Qed.

(** ** The bounds calculation *)

Lemma six_sliders {A} (slider : list A) :
  length slider = 6%nat →
  ∃ s0 s1 s2 s3 s4 s5, slider = [s0; s1; s2; s3; s4; s5].
Proof.
  intros Hlen.
  do 6 (destruct slider as [|? slider]; [discriminate Hlen|]).
  destruct slider; [|discriminate Hlen]. by repeat eexists.
Qed.

(** Six sliders are enough for every subscript of [__cspaceBounds]: the
    call returns the two scaled arrays, which have three [float64]
    components each, collapsed for key 7. This holds for every integer
    key, inside the enumeration or not. *)
Lemma cspaceBounds_six cspace s0 s1 s2 s3 s4 s5 :
  let mins := Int64Array (i64 <$> native_min cspace) in
  let maxs := Int64Array (i64 <$> native_max cspace) in
  ∃ l0 l1 l2 u0 u1 u2,
    scaled mins maxs [s0; s2; s4] = Float64Array [l0; l1; l2] ∧
    scaled mins maxs [s1; s3; s5] = Float64Array [u0; u1; u2] ∧
    __cspaceBounds cspace [s0; s1; s2; s3; s4; s5]
    = Ok (collapse cspace [l0; l1; l2], collapse cspace [u0; u1; u2]).
Proof.
  intros mins maxs.
  destruct (scaled_native cspace s0 s2 s4) as (l0 & l1 & l2 & Hl & _).
  destruct (scaled_native cspace s1 s3 s5) as (u0 & u1 & u2 & Hu & _).
  exists l0, l1, l2, u0, u1, u2. do 2 (split; [assumption|]).
  unfold __cspaceBounds. rewrite mins_native, maxs_native.
  cbn [getitem lookup list_lookup mbind result_bind].
  fold mins maxs.
  change (np_add (np_true_divide (np_mul (np_array [s0; s2; s4]) (np_sub maxs mins)) 100) mins)
    with (scaled mins maxs [s0; s2; s4]).
  change (np_add (np_true_divide (np_mul (np_array [s1; s3; s5]) (np_sub maxs mins)) 100) mins)
    with (scaled mins maxs [s1; s3; s5]).
  fold mins maxs in Hl, Hu. rewrite Hl, Hu.
  unfold collapse. by case_decide.
Qed.

(** For six small sliders the two arrays are the scaled triples of the
    specification. *)
Lemma cspaceBounds_six_small cspace s0 s1 s2 s3 s4 s5 :
  let slider := [s0; s1; s2; s3; s4; s5] in
  Forall small slider →
  __cspaceBounds cspace slider
  = Ok (collapse cspace (scaled_lowerb cspace slider),
        collapse cspace (scaled_upperb cspace slider)).
Proof.
  intros slider Hsmall. subst slider.
  apply Forall_cons in Hsmall as [H0 Hsmall].
  apply Forall_cons in Hsmall as [H1 Hsmall].
  apply Forall_cons in Hsmall as [H2 Hsmall].
  apply Forall_cons in Hsmall as [H3 Hsmall].
  apply Forall_cons in Hsmall as [H4 Hsmall].
  apply Forall_cons in Hsmall as [H5 _].
  destruct (cspaceBounds_six cspace s0 s1 s2 s3 s4 s5)
    as (l0 & l1 & l2 & u0 & u1 & u2 & Hl & Hu & ->).
  destruct (scaled_native cspace s0 s2 s4) as (l0' & l1' & l2' & Hl' & Hlow).
  destruct (scaled_native cspace s1 s3 s5) as (u0' & u1' & u2' & Hu' & Hup).
  rewrite Hl in Hl'. rewrite Hu in Hu'. simplify_eq.
  unfold scaled_lowerb, scaled_upperb, scale3, lowerb_raw, upperb_raw.
  destruct (native_min cspace) as [|mn0 [|mn1 [|mn2 [|]]]] eqn:Emn;
    try (pose proof (native_min_length cspace) as HL; rewrite Emn in HL;
         discriminate HL).
  destruct (native_max cspace) as [|mx0 [|mx1 [|mx2 [|]]]] eqn:Emx;
    try (pose proof (native_max_length cspace) as HL; rewrite Emx in HL;
         discriminate HL).
  pose proof (Hlow 0%nat s0 mn0 mx0 eq_refl eq_refl eq_refl H0) as L0.
  pose proof (Hlow 1%nat s2 mn1 mx1 eq_refl eq_refl eq_refl H2) as L1.
  pose proof (Hlow 2%nat s4 mn2 mx2 eq_refl eq_refl eq_refl H4) as L2.
  pose proof (Hup 0%nat s1 mn0 mx0 eq_refl eq_refl eq_refl H1) as U0.
  pose proof (Hup 1%nat s3 mn1 mx1 eq_refl eq_refl eq_refl H3) as U1.
  pose proof (Hup 2%nat s5 mn2 mx2 eq_refl eq_refl eq_refl H5) as U2.
  simplify_eq/=. reflexivity.
Qed.

(** For six sliders, channel [ch] has a lower and an upper bound; the
    lower bound is the scaled slider [2 ch] when that slider is small,
    and the upper bound the scaled slider [2 ch + 1] when that one is,
    on the native range of the channel. Grayscale has channel 0 only. *)
Lemma bounds_channels cspace (slider_pos : list number) (ch : nat) :
  length slider_pos = 6%nat →
  (ch < 3)%nat →
  cspace ≠ 7%Z ∨ ch = 0%nat →
  ∃ lowerb upperb mn mx lo hi bl bu,
    __cspaceBounds cspace slider_pos = Ok (lowerb, upperb) ∧
    native_min cspace !! ch = Some mn ∧
    native_max cspace !! ch = Some mx ∧
    (0 ≤ mn ≤ 1 ∧ mn < mx ≤ 255)%Z ∧
    slider_pos !! (2 * ch)%nat = Some lo ∧
    slider_pos !! (2 * ch + 1)%nat = Some hi ∧
    channel lowerb ch = Some bl ∧
    channel upperb ch = Some bu ∧
    (small lo → bl = scale (num_val lo) mn mx) ∧
    (small hi → bu = scale (num_val hi) mn mx).
Proof.
  intros Hlen Hch Hgray.
  destruct (six_sliders _ Hlen) as (s0 & s1 & s2 & s3 & s4 & s5 & ->).
  destruct (cspaceBounds_six cspace s0 s1 s2 s3 s4 s5)
    as (l0 & l1 & l2 & u0 & u1 & u2 & Hl & Hu & ->).
  destruct (scaled_native cspace s0 s2 s4) as (l0' & l1' & l2' & Hl' & Hlow).
  destruct (scaled_native cspace s1 s3 s5) as (u0' & u1' & u2' & Hu' & Hup).
  rewrite Hl in Hl'. rewrite Hu in Hu'. simplify_eq.
  pose proof (native_range cspace) as Hrange.
  destruct (native_min cspace) as [|mn0 [|mn1 [|mn2 [|]]]] eqn:Emn;
    try (pose proof (native_min_length cspace) as HL; rewrite Emn in HL;
         discriminate HL).
  destruct (native_max cspace) as [|mx0 [|mx1 [|mx2 [|]]]] eqn:Emx;
    try (pose proof (native_max_length cspace) as HL; rewrite Emx in HL;
         discriminate HL).
  assert (∀ c, channel (collapse cspace [l0'; l1'; l2']) c = [l0'; l1'; l2'] !! c
               ∧ channel (collapse cspace [u0'; u1'; u2']) c = [u0'; u1'; u2'] !! c
               ∨ cspace = 7%Z ∧ c ≠ 0%nat) as Hchan.
  { intros c. unfold collapse. case_decide; [|by left].
    destruct c; [by left | by right]. }
  destruct ch as [|[|[|?]]]; [| | |lia].
  - destruct (Hchan 0%nat) as [[Hcl Hcu]|[_ ?]]; [|done].
    eexists _, _, mn0, mx0, s0, s1, l0', u0'.
    do 3 (split; [reflexivity|]).
    split; [by apply (Hrange 0%nat)|].
    do 2 (split; [reflexivity|]).
    split; [by rewrite Hcl|]. split; [by rewrite Hcu|].
    split; intros Hs.
    + pose proof (Hlow 0%nat s0 mn0 mx0 eq_refl eq_refl eq_refl Hs). by simplify_eq/=.
    + pose proof (Hup 0%nat s1 mn0 mx0 eq_refl eq_refl eq_refl Hs). by simplify_eq/=.
  - destruct (Hchan 1%nat) as [[Hcl Hcu]|[? _]]; [|destruct Hgray; done].
    eexists _, _, mn1, mx1, s2, s3, l1', u1'.
    do 3 (split; [reflexivity|]).
    split; [by apply (Hrange 1%nat)|].
    do 2 (split; [reflexivity|]).
    split; [by rewrite Hcl|]. split; [by rewrite Hcu|].
    split; intros Hs.
    + pose proof (Hlow 1%nat s2 mn1 mx1 eq_refl eq_refl eq_refl Hs). by simplify_eq/=.
    + pose proof (Hup 1%nat s3 mn1 mx1 eq_refl eq_refl eq_refl Hs). by simplify_eq/=.
  - destruct (Hchan 2%nat) as [[Hcl Hcu]|[? _]]; [|destruct Hgray; done].
    eexists _, _, mn2, mx2, s4, s5, l2', u2'.
    do 3 (split; [reflexivity|]).
    split; [by apply (Hrange 2%nat)|].
    do 2 (split; [reflexivity|]).
    split; [by rewrite Hcl|]. split; [by rewrite Hcu|].
    split; intros Hs.
    + pose proof (Hlow 2%nat s4 mn2 mx2 eq_refl eq_refl eq_refl Hs). by simplify_eq/=.
    + pose proof (Hup 2%nat s5 mn2 mx2 eq_refl eq_refl eq_refl Hs). by simplify_eq/=.
Qed.

(** C1, as the code has it. For every key of the enumeration and every
    six sliders, each a float or an int of magnitude at most [2^53],
    [__cspaceBounds] takes the sliders at indices 0, 2, 4 as raw lower
    bounds and those at 1, 3, 5 as raw upper bounds, and scales each
    component as [raw * (max - min) / 100 + min] in [float64]
    arithmetic, with the native range of the key: minimum (0,1,1) for
    Lab, maximum (180,255,255) for HSV and HLS, (0,0,0) and
    (255,255,255) otherwise. The value returned is that triple, of
    which Grayscale keeps the first component. *)
Theorem bounds_scaling cspace (slider_pos : list number) :
  in_enumeration cspace →
  length slider_pos = 6%nat →
  Forall small slider_pos →
  ∃ mn0 mn1 mn2 mx0 mx1 mx2 s0 s1 s2 s3 s4 s5,
    slider_pos = [s0; s1; s2; s3; s4; s5] ∧
    [mn0; mn1; mn2] = (if decide (cspace = 3%Z) then [0; 1; 1] else [0; 0; 0])%Z ∧
    [mx0; mx1; mx2] = (if decide (cspace = 1%Z ∨ cspace = 2%Z)
                       then [180; 255; 255] else [255; 255; 255])%Z ∧
    __cspaceBounds cspace slider_pos
    = Ok (collapse cspace [ scale (num_val s0) mn0 mx0;
                            scale (num_val s2) mn1 mx1;
                            scale (num_val s4) mn2 mx2 ],
          collapse cspace [ scale (num_val s1) mn0 mx0;
                            scale (num_val s3) mn1 mx1;
                            scale (num_val s5) mn2 mx2 ]).
Proof.
  intros _ Hlen Hsmall.
  destruct (six_sliders slider_pos Hlen)
    as (s0 & s1 & s2 & s3 & s4 & s5 & ->).
  rewrite cspaceBounds_six_small by exact Hsmall.
  unfold scaled_lowerb, scaled_upperb, native_min, native_max.
  repeat case_decide; by repeat eexists.
Qed.

Lemma bounds_scaling_witness :
  ∃ mn0 mn1 mn2 mx0 mx1 mx2 s0 s1 s2 s3 s4 s5,
    [int 0; int 100; int 0; int 100; PFloat (Fin (1 # 2)); int 100]
    = [s0; s1; s2; s3; s4; s5] ∧
    [mn0; mn1; mn2] = (if decide (3%Z = 3%Z) then [0; 1; 1] else [0; 0; 0])%Z ∧
    [mx0; mx1; mx2] = (if decide (3%Z = 1%Z ∨ 3%Z = 2%Z)
                       then [180; 255; 255] else [255; 255; 255])%Z ∧
    __cspaceBounds 3 [int 0; int 100; int 0; int 100; PFloat (Fin (1 # 2)); int 100]
    = Ok (collapse 3 [ scale (num_val s0) mn0 mx0;
                       scale (num_val s2) mn1 mx1;
                       scale (num_val s4) mn2 mx2 ],
          collapse 3 [ scale (num_val s1) mn0 mx0;
                       scale (num_val s3) mn1 mx1;
                       scale (num_val s5) mn2 mx2 ]).
Proof.
  apply (bounds_scaling 3
           [int 0; int 100; int 0; int 100; PFloat (Fin (1 # 2)); int 100]).
  - unfold in_enumeration. lia.
  - reflexivity.
  - repeat constructor; by_evaluation.
Defined.

(** C1 as stated fails in two ways. The int 2^56 as the high slider of
    the hue channel of HSV: the product with 180 does not fit [int64],
    wraps around, and the upper bound is negative, where
    [raw * (max - min) / 100 + min] is positive. The int 1 as a high
    slider of BGR: the upper bound is the [float64] next to 2.55, not
    [1 * 255 / 100]. *)
Lemma scaling_wraps_and_rounds :
  in_enumeration 1 ∧ in_enumeration 0 ∧
  (∃ lowerb upperb u,
     __cspaceBounds 1 [int 0; int (2 ^ 56); int 0; int 100; int 0; int 100]
     = Ok (lowerb, upperb) ∧
     channel upperb 0 = Some (Fin u) ∧
     u < 0 ∧ 0 < inject_Z (2 ^ 56) * (180 - 0) / 100 + 0) ∧
  (∃ lowerb upperb u,
     __cspaceBounds 0 [int 0; int 1; int 0; int 100; int 0; int 100]
     = Ok (lowerb, upperb) ∧
     channel upperb 0 = Some (Fin u) ∧
     ¬ u == 1 * (255 - 0) / 100 + 0).
Proof.
  split; [unfold in_enumeration; lia|].
  split; [unfold in_enumeration; lia|].
  split.
  - eexists _, _, _. split; [by vm_compute|]. split; [reflexivity|].
    split; reflexivity.
  - eexists _, _, _. split; [by vm_compute|]. split; [reflexivity|].
    by_evaluation.
Qed.

(** C8. Grayscale with sliders [0,50,0,0,0,0]: the lower bound is the
    single value 0 and the upper bound the single value 127.5, which is
    50 * 255 / 100 without truncation (so not 127). *)
Theorem gray_half_scenario :
  ∃ lowerb upperb,
    __cspaceBounds 7 [int 0; int 50; int 0; int 0; int 0; int 0]
    = Ok (Scalar (PFloat (Fin lowerb)), Scalar (PFloat (Fin upperb))) ∧
    lowerb == 0 ∧
    upperb == 255 # 2 ∧
    upperb == 50 * 255 / 100 ∧
    ¬ upperb == 127.
Proof.
  eexists _, _. split; [by vm_compute|].
  repeat split; by_evaluation.
Qed.

(** The first component of a scaled array depends on the first raw
    value and on which of the raw values are ints, nothing else. *)
Lemma scaled_first (a b c b' c' : number) (mn0 mn1 mn2 mx0 mx1 mx2 : int64) :
  is_int b = is_int b' →
  is_int c = is_int c' →
  ∃ x0 x1 x2 x1' x2',
    scaled (Int64Array [mn0; mn1; mn2]) (Int64Array [mx0; mx1; mx2]) [a; b; c]
    = Float64Array [x0; x1; x2] ∧
    scaled (Int64Array [mn0; mn1; mn2]) (Int64Array [mx0; mx1; mx2]) [a; b'; c']
    = Float64Array [x0; x1'; x2'].
Proof.
  intros Hb Hc.
  destruct (is_int a && is_int b && is_int c) eqn:Eint.
  - destruct a as [n0|], b as [n1|], c as [n2|]; try discriminate Eint.
    destruct b' as [n1'|]; [|discriminate Hb].
    destruct c' as [n2'|]; [|discriminate Hc].
    rewrite !scaled_all_int. by eexists _, _, _, _, _.
  - rewrite !scaled_some_float; [by eexists _, _, _, _, _| |exact Eint].
    by rewrite <- Hb, <- Hc.
Qed.

Lemma cspaceBounds_gray s0 s1 s2 s3 s4 s5 :
  ∃ l0 l1 l2 u0 u1 u2,
    scaled (Int64Array (i64 <$> native_min 7)) (Int64Array (i64 <$> native_max 7))
           [s0; s2; s4] = Float64Array [l0; l1; l2] ∧
    scaled (Int64Array (i64 <$> native_min 7)) (Int64Array (i64 <$> native_max 7))
           [s1; s3; s5] = Float64Array [u0; u1; u2] ∧
    __cspaceBounds 7 [s0; s1; s2; s3; s4; s5]
    = Ok (Scalar (PFloat l0), Scalar (PFloat u0)).
Proof.
  destruct (cspaceBounds_six 7 s0 s1 s2 s3 s4 s5)
    as (l0 & l1 & l2 & u0 & u1 & u2 & Hl & Hu & Hb).
  by exists l0, l1, l2, u0, u1, u2.
Qed.

(** C10, as the code has it. For Grayscale, two six-slider sequences
    that agree at indices 0 and 1 produce the same pair of bounds,
    whatever stands at indices 2-5, provided the two sliders at indices
    0 and 1 are floats or ints of magnitude at most [2^53], or the two
    sequences hold ints at the same indices. *)
Theorem gray_depends_on_first_pair (slider_pos slider_pos' : list number) :
  length slider_pos = 6%nat →
  length slider_pos' = 6%nat →
  slider_pos !! 0%nat = slider_pos' !! 0%nat →
  slider_pos !! 1%nat = slider_pos' !! 1%nat →
  Forall small (take 2 slider_pos) ∨ is_int <$> slider_pos = is_int <$> slider_pos' →
  __cspaceBounds 7 slider_pos = __cspaceBounds 7 slider_pos' ∧
  ∃ lowerb upperb, __cspaceBounds 7 slider_pos = Ok (Scalar lowerb, Scalar upperb).
Proof.
  intros Hlen Hlen' H0 H1 Hcase.
  destruct (six_sliders _ Hlen) as (s0 & s1 & s2 & s3 & s4 & s5 & ->).
  destruct (six_sliders _ Hlen') as (t0 & t1 & t2 & t3 & t4 & t5 & ->).
  simplify_eq/=.
  destruct (cspaceBounds_gray t0 t1 s2 s3 s4 s5)
    as (l0 & l1 & l2 & u0 & u1 & u2 & Hl & Hu & Hb).
  destruct (cspaceBounds_gray t0 t1 t2 t3 t4 t5)
    as (l0' & l1' & l2' & u0' & u1' & u2' & Hl' & Hu' & Hb').
  rewrite Hb, Hb'. split; [|by eexists _, _].
  destruct Hcase as [Hsmall|Hkinds].
  - apply Forall_cons in Hsmall as [Hs0 Hsmall].
    apply Forall_cons in Hsmall as [Hs1 _].
    destruct (scaled_native 7 t0 s2 s4) as (? & ? & ? & E1 & Hlow).
    destruct (scaled_native 7 t1 s3 s5) as (? & ? & ? & E2 & Hup).
    destruct (scaled_native 7 t0 t2 t4) as (? & ? & ? & E3 & Hlow').
    destruct (scaled_native 7 t1 t3 t5) as (? & ? & ? & E4 & Hup').
    rewrite Hl in E1. rewrite Hu in E2. rewrite Hl' in E3. rewrite Hu' in E4.
    simplify_eq.
    pose proof (Hlow 0%nat t0 0%Z 255%Z eq_refl eq_refl eq_refl Hs0) as A1.
    pose proof (Hlow' 0%nat t0 0%Z 255%Z eq_refl eq_refl eq_refl Hs0) as A2.
    pose proof (Hup 0%nat t1 0%Z 255%Z eq_refl eq_refl eq_refl Hs1) as A3.
    pose proof (Hup' 0%nat t1 0%Z 255%Z eq_refl eq_refl eq_refl Hs1) as A4.
    by simplify_eq/=.
  - cbn in Hkinds. injection Hkinds as K2 K3 K4 K5.
    destruct (scaled_first t0 s2 s4 t2 t4 (i64 0) (i64 0) (i64 0)
                (i64 255) (i64 255) (i64 255) K2 K4)
      as (? & ? & ? & ? & ? & E1 & E3).
    destruct (scaled_first t1 s3 s5 t3 t5 (i64 0) (i64 0) (i64 0)
                (i64 255) (i64 255) (i64 255) K3 K5)
      as (? & ? & ? & ? & ? & E2 & E4).
    change (Int64Array [i64 0; i64 0; i64 0])
      with (Int64Array (i64 <$> native_min 7)) in E1, E2, E3, E4.
    change (Int64Array [i64 255; i64 255; i64 255])
      with (Int64Array (i64 <$> native_max 7)) in E1, E2, E3, E4.
    rewrite Hl in E1. rewrite Hu in E2. rewrite Hl' in E3. rewrite Hu' in E4.
    by simplify_eq.
Qed.

Lemma gray_depends_on_first_pair_witness :
  __cspaceBounds 7 [int 10; int 50; int 1; int 2; int 3; int 4]
  = __cspaceBounds 7 [int 10; int 50; PFloat (Fin (1 # 2)); int 98; int 97; int 96] ∧
  ∃ lowerb upperb,
    __cspaceBounds 7 [int 10; int 50; int 1; int 2; int 3; int 4]
    = Ok (Scalar lowerb, Scalar upperb).
Proof.
  apply (gray_depends_on_first_pair
           [int 10; int 50; int 1; int 2; int 3; int 4]
           [int 10; int 50; PFloat (Fin (1 # 2)); int 98; int 97; int 96]);
    [reflexivity | reflexivity | reflexivity | reflexivity |].
  left. repeat constructor; by_evaluation.
Defined.

(** C10 as stated fails: the two sequences below agree at indices 0 and
    1 and differ at index 2 only. With the int 0 there the lower array
    is an [int64] array, and the product of 2^56 and 255 wraps around;
    with the float 0.5 there it is a [float64] array, and nothing
    wraps. The two Grayscale lower bounds differ. *)
Lemma gray_lower_bound_depends_on_index_2 :
  ∃ l l' u u',
    __cspaceBounds 7 [int (2 ^ 56); int 50; int 0; int 0; int 0; int 0]
    = Ok (Scalar (PFloat (Fin l)), Scalar u) ∧
    __cspaceBounds 7 [int (2 ^ 56); int 50; PFloat (Fin (1 # 2)); int 0; int 0; int 0]
    = Ok (Scalar (PFloat (Fin l')), Scalar u') ∧
    l < 0 ∧ 0 < l' ∧
    __cspaceBounds 7 [int (2 ^ 56); int 50; int 0; int 0; int 0; int 0]
    ≠ __cspaceBounds 7 [int (2 ^ 56); int 50; PFloat (Fin (1 # 2)); int 0; int 0; int 0].
Proof.
  eexists _, _, _, _. split; [by vm_compute|]. split; [by vm_compute|].
  split; [reflexivity|]. split; [reflexivity|]. by_evaluation.
Qed.

(** ** The scaling at the ends of the slider scale and beyond *)

(** On every native range, 0 scales to the minimum and 100 to the
    maximum, exactly; -1 scales below the minimum and 101 above the
    maximum. *)
Lemma native_range_cases cspace (ch : nat) (mn mx : Z) :
  native_min cspace !! ch = Some mn →
  native_max cspace !! ch = Some mx →
  (mn, mx) ∈ [(0, 255); (0, 180); (1, 255)]%Z.
Proof.
  unfold native_min, native_max. intros Hmn Hmx.
  repeat case_decide;
    (destruct ch as [|[|[|?]]]; simplify_eq/=; by repeat constructor).
Qed.

Lemma scale_ends cspace (ch : nat) (mn mx : Z) :
  native_min cspace !! ch = Some mn →
  native_max cspace !! ch = Some mx →
  scale (Fin 0) mn mx = Fin (inject_Z mn) ∧
  scale (Fin 100) mn mx = Fin (inject_Z mx) ∧
  flt_lt (scale (Fin (-1)) mn mx) (Fin (inject_Z mn)) ∧
  flt_lt (Fin (inject_Z mx)) (scale (Fin 101) mn mx).
Proof.
  intros Hmn Hmx.
  pose proof (native_range_cases cspace ch mn mx Hmn Hmx) as Hcases.
  clear Hmn Hmx.
  repeat (apply elem_of_cons in Hcases as [[= -> ->]|Hcases];
          [by vm_compute|]).
  by apply elem_of_nil in Hcases.
Qed.

Lemma cspaceBounds_returns cspace (slider_pos : list number) :
  length slider_pos = 6%nat →
  ∃ lowerb upperb, __cspaceBounds cspace slider_pos = Ok (lowerb, upperb).
Proof.
  intros Hlen.
  destruct (six_sliders _ Hlen) as (s0 & s1 & s2 & s3 & s4 & s5 & ->).
  destruct (cspaceBounds_six cspace s0 s1 s2 s3 s4 s5)
    as (l0 & l1 & l2 & u0 & u1 & u2 & _ & _ & ->).
  by eexists _, _.
Qed.

(** Grayscale has no channel other than channel 0. *)
Lemma gray_channel (slider_pos : list number) lowerb upperb (c : nat) :
  length slider_pos = 6%nat →
  __cspaceBounds 7 slider_pos = Ok (lowerb, upperb) →
  c ≠ 0%nat →
  channel lowerb c = None ∧ channel upperb c = None.
Proof.
  intros Hlen Hb Hc.
  destruct (six_sliders _ Hlen) as (s0 & s1 & s2 & s3 & s4 & s5 & ->).
  destruct (cspaceBounds_gray s0 s1 s2 s3 s4 s5)
    as (l0 & l1 & l2 & u0 & u1 & u2 & _ & _ & Hb').
  rewrite Hb' in Hb. injection Hb as <- <-. by destruct c.
Qed.

(** C6, as the code has it. Raising the high slider of a channel, all
    other sliders fixed, never lowers the upper bound of that channel,
    when the two values of the slider are floats or ints of magnitude
    at most [2^53]. Both runs return; the channel exists for channel 0
    of every key and for channels 1 and 2 of every key but Grayscale. *)
Theorem upper_bound_monotone cspace (slider_pos : list number) (c : nat)
    (v1 v2 : number) :
  in_enumeration cspace →
  length slider_pos = 6%nat →
  (c < 3)%nat →
  small v1 →
  small v2 →
  flt_le (num_val v1) (num_val v2) →
  ∃ lowerb1 upperb1 lowerb2 upperb2,
    __cspaceBounds cspace (<[(2 * c + 1)%nat := v1]> slider_pos) = Ok (lowerb1, upperb1) ∧
    __cspaceBounds cspace (<[(2 * c + 1)%nat := v2]> slider_pos) = Ok (lowerb2, upperb2) ∧
    ((cspace ≠ 7%Z ∨ c = 0%nat) →
       is_Some (channel upperb1 c) ∧ is_Some (channel upperb2 c)) ∧
    (∀ b1 b2, channel upperb1 c = Some b1 → channel upperb2 c = Some b2 →
              flt_le b1 b2).
Proof.
  intros _ Hlen Hc Hs1 Hs2 Hv.
  destruct (decide (cspace ≠ 7%Z ∨ c = 0%nat)) as [Hgray|Hgray].
  - destruct (bounds_channels cspace (<[(2 * c + 1)%nat := v1]> slider_pos) c)
      as (lowerb1 & upperb1 & mn & mx & lo1 & hi1 & bl1 & bu1 & Hb1 & Hmn & Hmx
          & Hrange & _ & Hhi1 & _ & Hu1 & _ & Hsc1);
      [by rewrite length_insert | assumption | assumption |].
    destruct (bounds_channels cspace (<[(2 * c + 1)%nat := v2]> slider_pos) c)
      as (lowerb2 & upperb2 & mn' & mx' & lo2 & hi2 & bl2 & bu2 & Hb2 & Hmn' & Hmx'
          & _ & _ & Hhi2 & _ & Hu2 & _ & Hsc2);
      [by rewrite length_insert | assumption | assumption |].
    rewrite list_lookup_insert_eq in Hhi1, Hhi2 by lia.
    simplify_eq.
    exists lowerb1, upperb1, lowerb2, upperb2.
    do 2 (split; [assumption|]).
    split; [intros _; split; by eexists|].
    intros b1 b2 E1 E2. rewrite Hu1 in E1. rewrite Hu2 in E2. simplify_eq.
    rewrite (Hsc1 Hs1), (Hsc2 Hs2). apply scale_mono; [lia|lia|exact Hv].
  - assert (cspace = 7%Z ∧ c ≠ 0%nat) as [-> Hc0].
    { split; [destruct (decide (cspace = 7%Z)); [done|] | intros ->];
        destruct Hgray; auto. }
    destruct (cspaceBounds_returns 7 (<[(2 * c + 1)%nat := v1]> slider_pos))
      as (lowerb1 & upperb1 & Hb1); [by rewrite length_insert|].
    destruct (cspaceBounds_returns 7 (<[(2 * c + 1)%nat := v2]> slider_pos))
      as (lowerb2 & upperb2 & Hb2); [by rewrite length_insert|].
    exists lowerb1, upperb1, lowerb2, upperb2.
    do 2 (split; [assumption|]).
    split; [intros [?|?]; done|].
    intros b1 b2 E1 _.
    destruct (gray_channel _ _ _ c ltac:(by rewrite length_insert) Hb1 Hc0) as [_ E].
    congruence.
Qed.

Lemma upper_bound_monotone_witness :
  ∃ lowerb1 upperb1 lowerb2 upperb2,
    __cspaceBounds 1 (<[(2 * 0 + 1)%nat := int 20]>
                        [int 0; int 100; int 0; int 100; int 0; int 100])
    = Ok (lowerb1, upperb1) ∧
    __cspaceBounds 1 (<[(2 * 0 + 1)%nat := PFloat (Fin (161 # 2))]>
                        [int 0; int 100; int 0; int 100; int 0; int 100])
    = Ok (lowerb2, upperb2) ∧
    ((1%Z ≠ 7%Z ∨ 0%nat = 0%nat) →
       is_Some (channel upperb1 0) ∧ is_Some (channel upperb2 0)) ∧
    (∀ b1 b2, channel upperb1 0 = Some b1 → channel upperb2 0 = Some b2 →
              flt_le b1 b2).
Proof.
  apply (upper_bound_monotone 1 [int 0; int 100; int 0; int 100; int 0; int 100] 0
           (int 20) (PFloat (Fin (161 # 2)))).
  - unfold in_enumeration. lia.
  - reflexivity.
  - lia.
  - by_evaluation.
  - by_evaluation.
  - by_evaluation.
Defined.

(** C6 as stated fails: for HSV, raising the high slider of the hue
    channel from the int 20 to the int 2^56 lowers the upper bound of
    the channel from 36 to a negative number, because the product of
    2^56 and 180 wraps around in [int64]. *)
Lemma upper_bound_drops_after_wrap :
  in_enumeration 1 ∧
  flt_le (num_val (int 20)) (num_val (int (2 ^ 56))) ∧
  ∃ lowerb1 upperb1 lowerb2 upperb2 b1 b2,
    __cspaceBounds 1 (<[(2 * 0 + 1)%nat := int 20]>
                        [int 0; int 100; int 0; int 100; int 0; int 100])
    = Ok (lowerb1, upperb1) ∧
    __cspaceBounds 1 (<[(2 * 0 + 1)%nat := int (2 ^ 56)]>
                        [int 0; int 100; int 0; int 100; int 0; int 100])
    = Ok (lowerb2, upperb2) ∧
    channel upperb1 0 = Some b1 ∧
    channel upperb2 0 = Some b2 ∧
    flt_eq b1 (Fin 36) ∧
    flt_lt b2 (Fin 0) ∧
    flt_lt b2 b1.
Proof.
  split; [unfold in_enumeration; lia|].
  split; [by_evaluation|].
  eexists _, _, _, _, _, _.
  split; [by vm_compute|]. split; [by vm_compute|].
  split; [reflexivity|]. split; [reflexivity|].
  repeat split; by_evaluation.
Qed.

(** C7, as the code has it. Integer sliders are never rejected: for
    every key of the enumeration and every six ints the call returns.
    Sliders of magnitude at most [2^53] are never clamped either: the
    bounds are those of the scaling formula, also when a slider lies
    outside [0,100]; a high slider above 100 then yields an upper bound
    above the native maximum of its channel, and a low slider below 0 a
    lower bound below the native minimum. *)
Theorem no_clamping cspace (n0 n1 n2 n3 n4 n5 : int64) :
  in_enumeration cspace →
  let slider_pos := PInt <$> [n0; n1; n2; n3; n4; n5] in
  ∃ lowerb upperb,
    __cspaceBounds cspace slider_pos = Ok (lowerb, upperb) ∧
    (Forall small slider_pos →
       lowerb = collapse cspace (scaled_lowerb cspace slider_pos) ∧
       upperb = collapse cspace (scaled_upperb cspace slider_pos)) ∧
    (∀ (ch : nat) (lo hi : int64),
       slider_pos !! (2 * ch)%nat = Some (PInt lo) →
       slider_pos !! (2 * ch + 1)%nat = Some (PInt hi) →
       cspace ≠ 7%Z ∨ ch = 0%nat →
       ∃ mn mx bl bu,
         native_min cspace !! ch = Some mn ∧
         native_max cspace !! ch = Some mx ∧
         channel lowerb ch = Some bl ∧
         channel upperb ch = Some bu ∧
         (small (PInt hi) → (100 < int64_val hi)%Z → flt_lt (Fin (inject_Z mx)) bu) ∧
         (small (PInt lo) → (int64_val lo < 0)%Z → flt_lt bl (Fin (inject_Z mn)))).
Proof.
  intros _ slider_pos. subst slider_pos. cbn [fmap list_fmap].
  set (slider_pos := [PInt n0; PInt n1; PInt n2; PInt n3; PInt n4; PInt n5]).
  assert (length slider_pos = 6%nat) as Hlen by reflexivity.
  destruct (cspaceBounds_returns cspace slider_pos Hlen) as (lowerb & upperb & Hb).
  exists lowerb, upperb. split; [assumption|]. split.
  - intros Hsmall.
    pose proof (cspaceBounds_six_small cspace _ _ _ _ _ _ Hsmall) as Hb'.
    cbn zeta in Hb'. fold slider_pos in Hb'. rewrite Hb in Hb'.
    by injection Hb' as -> ->.
  - intros ch lo hi Hlo Hhi Hgray.
    assert (ch < 3)%nat as Hch by (apply lookup_lt_Some in Hlo; lia).
    destruct (bounds_channels cspace slider_pos ch Hlen Hch Hgray)
      as (lowerb' & upperb' & mn & mx & lo' & hi' & bl & bu & Hb' & Hmn & Hmx
          & Hrange & Hlo' & Hhi' & Hl & Hu & Hsl & Hsu).
    rewrite Hb in Hb'. simplify_eq.
    destruct (scale_ends cspace ch mn mx Hmn Hmx) as (_ & _ & Hbelow & Habove).
    exists mn, mx, bl, bu. do 4 (split; [assumption|]). split.
    + intros Hs Hz. rewrite (Hsu Hs).
      eapply flt_lt_le_trans; [exact Habove|].
      apply scale_mono; [lia|lia|]. cbn.
      change 101 with (inject_Z 101). rewrite <- Zle_Qle. lia.
    + intros Hs Hz. rewrite (Hsl Hs).
      eapply flt_le_lt_trans; [|exact Hbelow].
      apply scale_mono; [lia|lia|]. cbn.
      change (-1) with (inject_Z (-1)). rewrite <- Zle_Qle. lia.
Qed.

Lemma no_clamping_witness :
  let slider_pos :=
    PInt <$> [i64 (-50); i64 200; i64 0; i64 100; i64 (-1); i64 101] in
  ∃ lowerb upperb,
    __cspaceBounds 1 slider_pos = Ok (lowerb, upperb) ∧
    (Forall small slider_pos →
       lowerb = collapse 1 (scaled_lowerb 1 slider_pos) ∧
       upperb = collapse 1 (scaled_upperb 1 slider_pos)) ∧
    (∀ (ch : nat) (lo hi : int64),
       slider_pos !! (2 * ch)%nat = Some (PInt lo) →
       slider_pos !! (2 * ch + 1)%nat = Some (PInt hi) →
       1%Z ≠ 7%Z ∨ ch = 0%nat →
       ∃ mn mx bl bu,
         native_min 1 !! ch = Some mn ∧
         native_max 1 !! ch = Some mx ∧
         channel lowerb ch = Some bl ∧
         channel upperb ch = Some bu ∧
         (small (PInt hi) → (100 < int64_val hi)%Z → flt_lt (Fin (inject_Z mx)) bu) ∧
         (small (PInt lo) → (int64_val lo < 0)%Z → flt_lt bl (Fin (inject_Z mn)))).
Proof.
  apply (no_clamping 1 (i64 (-50)) (i64 200) (i64 0) (i64 100) (i64 (-1)) (i64 101)).
  unfold in_enumeration. lia.
Defined.

(** C7 as stated fails: for BGR, the int -2^57 as the low slider of the
    first channel is not scaled by the formula. Its product with 255
    wraps around in [int64], and the lower bound is positive, above the
    native minimum 0, where [raw * (max - min) / 100 + min] is
    negative. *)
Lemma negative_slider_wraps_above_minimum :
  in_enumeration 0 ∧
  ∃ lowerb upperb l,
    __cspaceBounds 0 (PInt <$> [i64 (- 2 ^ 57); i64 100; i64 0; i64 100; i64 0; i64 100])
    = Ok (lowerb, upperb) ∧
    channel lowerb 0 = Some (Fin l) ∧
    0 < l ∧
    inject_Z (- 2 ^ 57) * (255 - 0) / 100 + 0 < 0.
Proof.
  split; [unfold in_enumeration; lia|].
  eexists _, _, _. split; [by vm_compute|]. split; [reflexivity|].
  split; reflexivity.
Qed.

(** Only the keys 1, 2, 3 and 7 are looked at by [__cspaceBounds]; any
    other key gives what key 0 gives. *)
Lemma cspaceBounds_default cspace (slider_pos : list number) :
  cspace ≠ 1%Z → cspace ≠ 2%Z → cspace ≠ 3%Z → cspace ≠ 7%Z →
  __cspaceBounds cspace slider_pos = __cspaceBounds 0 slider_pos.
Proof.
  intros H1 H2 H3 H7.
  unfold __cspaceBounds. rewrite !mins_native, !maxs_native.
  unfold native_min, native_max.
  rewrite !decide_False by (first [assumption | tauto | lia]).
  destruct (decide (cspace = 7%Z)); [contradiction|].
  reflexivity.
Qed.

(** Every key but 7 returns two arrays of three components. *)
Lemma cspaceBounds_arrays cspace (slider_pos : list number) :
  length slider_pos = 6%nat →
  cspace ≠ 7%Z →
  ∃ lowerb upperb,
    __cspaceBounds cspace slider_pos = Ok (Array lowerb, Array upperb) ∧
    nd_length lowerb = 3%nat ∧ nd_length upperb = 3%nat.
Proof.
  intros Hlen Hne.
  destruct (six_sliders _ Hlen) as (s0 & s1 & s2 & s3 & s4 & s5 & ->).
  destruct (cspaceBounds_six cspace s0 s1 s2 s3 s4 s5)
    as (l0 & l1 & l2 & u0 & u1 & u2 & _ & _ & ->).
  unfold collapse. case_decide; [contradiction|]. by eexists _, _.
Qed.

(** ** Colorspace dispatch *)

Section Dispatch.

Context {Image : Type}.
Variable cvtColor : Image → ColorConversionCode → Image.
Variable inRange : Image → ndvalue → ndvalue → result Image.

Lemma convert_code_outside cspace :
  ¬ in_enumeration cspace → convert_code !! cspace = None.
Proof.
  unfold in_enumeration, convert_code. intros Hout.
  destruct (decide (cspace = 0%Z)) as [->|Hne]; [reflexivity|].
  rewrite !lookup_insert_ne, lookup_singleton_ne by lia. reflexivity.
Qed.

Lemma cspaceSwitch_outside img cspace :
  ¬ in_enumeration cspace →
  __cspaceSwitch cvtColor img cspace = Raise (KeyError (KInt cspace)).
Proof.
  intros Hout. unfold __cspaceSwitch.
  case_decide as H0; [subst; unfold in_enumeration in Hout; lia|].
  by rewrite convert_code_outside.
Qed.

Lemma cspaceSwitch_enumeration img cspace :
  in_enumeration cspace → ∃ img', __cspaceSwitch cvtColor img cspace = Ok img'.
Proof.
  unfold in_enumeration. intros Hin.
  assert (cspace ∈ [0; 1; 2; 3; 4; 5; 6; 7]%Z) as Hcases
    by (rewrite !elem_of_cons; lia).
  repeat (apply elem_of_cons in Hcases as [->|Hcases]; [by eexists|]).
  by apply elem_of_nil in Hcases.
Qed.

(** After the conversion, [__cspaceRange] is the range test. *)
Lemma cspaceRange_converted img img' cspace lowerb upperb :
  __cspaceSwitch cvtColor img cspace = Ok img' →
  __cspaceRange cvtColor inRange img cspace lowerb upperb
  = inRange img' lowerb upperb.
Proof.
  intros Hs. unfold __cspaceRange. rewrite Hs. cbn.
  by destruct (inRange img' lowerb upperb).
Qed.

Lemma cspaceRange_outside img cspace lowerb upperb :
  ¬ in_enumeration cspace →
  __cspaceRange cvtColor inRange img cspace lowerb upperb
  = Raise (KeyError (KInt cspace)).
Proof.
  intros Hout. unfold __cspaceRange. by rewrite cspaceSwitch_outside.
Qed.

End Dispatch.

(** C5. Converting to BGR (key 0) returns the input image itself; the
    conversion primitive plays no part in the result. *)
Theorem bgr_identity (Image : Type) (cvtColor : Image → ColorConversionCode → Image)
    (img : Image) :
  __cspaceSwitch cvtColor img 0 = Ok img.
Proof. reflexivity. Qed.

(** C4, as the code has it. The claim that [__cspaceBounds] fails on a
    key outside {0,...,7} does not hold: the range dictionaries are read
    with [get] and a default. For every such key and every six sliders
    the call returns two arrays of three components, the ones it
    returns for BGR; for sliders that are floats or ints of magnitude
    at most [2^53] these are the sliders scaled on the default range
    (0,0,0)-(255,255,255). It is [__cspaceSwitch], and with it
    [__cspaceRange], that raises [KeyError] on the key. *)
Theorem outside_enumeration_default_range
    (Image : Type) (cvtColor : Image → ColorConversionCode → Image)
    (inRange : Image → ndvalue → ndvalue → result Image) (img : Image)
    cspace (slider_pos : list number) :
  ¬ in_enumeration cspace →
  length slider_pos = 6%nat →
  (∃ lowerb upperb,
     __cspaceBounds cspace slider_pos = Ok (Array lowerb, Array upperb) ∧
     nd_length lowerb = 3%nat ∧ nd_length upperb = 3%nat) ∧
  __cspaceBounds cspace slider_pos = __cspaceBounds 0 slider_pos ∧
  (Forall small slider_pos →
     __cspaceBounds cspace slider_pos
     = Ok (Array (Float64Array
                    (scale3 (lowerb_raw slider_pos) [0; 0; 0]%Z [255; 255; 255]%Z)),
           Array (Float64Array
                    (scale3 (upperb_raw slider_pos) [0; 0; 0]%Z [255; 255; 255]%Z)))) ∧
  __cspaceSwitch cvtColor img cspace = Raise (KeyError (KInt cspace)) ∧
  ∀ lowerb upperb,
    __cspaceRange cvtColor inRange img cspace lowerb upperb
    = Raise (KeyError (KInt cspace)).
Proof.
  intros Hout Hlen. unfold in_enumeration in Hout.
  split; [|split; [|split; [|split]]].
  - apply cspaceBounds_arrays; [assumption|lia].
  - apply cspaceBounds_default; lia.
  - intros Hsmall.
    destruct (six_sliders _ Hlen) as (s0 & s1 & s2 & s3 & s4 & s5 & ->).
    rewrite cspaceBounds_six_small by exact Hsmall.
    unfold collapse, scaled_lowerb, scaled_upperb, native_min, native_max.
    rewrite !decide_False by (first [lia | intros [?|?]; lia]).
    reflexivity.
  - by apply cspaceSwitch_outside.
  - intros lowerb upperb. by apply cspaceRange_outside.
Qed.

Lemma outside_enumeration_default_range_witness :
  (∃ lowerb upperb,
     __cspaceBounds 8 [int 0; int 100; int 0; int 100; int 0; int 100]
     = Ok (Array lowerb, Array upperb) ∧
     nd_length lowerb = 3%nat ∧ nd_length upperb = 3%nat) ∧
  __cspaceBounds 8 [int 0; int 100; int 0; int 100; int 0; int 100]
  = __cspaceBounds 0 [int 0; int 100; int 0; int 100; int 0; int 100] ∧
  (Forall small [int 0; int 100; int 0; int 100; int 0; int 100] →
     __cspaceBounds 8 [int 0; int 100; int 0; int 100; int 0; int 100]
     = Ok (Array (Float64Array
                    (scale3 (lowerb_raw [int 0; int 100; int 0; int 100; int 0; int 100])
                            [0; 0; 0]%Z [255; 255; 255]%Z)),
           Array (Float64Array
                    (scale3 (upperb_raw [int 0; int 100; int 0; int 100; int 0; int 100])
                            [0; 0; 0]%Z [255; 255; 255]%Z)))) ∧
  __cspaceSwitch Converted Input 8 = Raise (KeyError (KInt 8)) ∧
  ∀ lowerb upperb,
    __cspaceRange Converted (accepting Thresholded) Input 8 lowerb upperb
    = Raise (KeyError (KInt 8)).
Proof.
  apply (outside_enumeration_default_range trace Converted (accepting Thresholded)
           Input 8 [int 0; int 100; int 0; int 100; int 0; int 100]).
  - unfold in_enumeration. lia.
  - reflexivity.
Defined.

(** C4 as stated fails: key 8 lies outside the enumeration, the sliders
    are six numbers, and [__cspaceBounds] returns bounds. *)
Lemma outside_enumeration_no_error :
  ¬ in_enumeration 8 ∧
  length [int 0; int 100; int 0; int 100; int 0; int 100] = 6%nat ∧
  (∃ lowerb upperb,
     __cspaceBounds 8 [int 0; int 100; int 0; int 100; int 0; int 100]
     = Ok (lowerb, upperb)) ∧
  ¬ (∃ e, __cspaceBounds 8 [int 0; int 100; int 0; int 100; int 0; int 100]
          = Raise e).
Proof.
  split; [unfold in_enumeration; lia|].
  split; [reflexivity|].
  split; [eexists _, _; by vm_compute|].
  intros [e He]. vm_compute in He. discriminate He.
Qed.

(** ** The entry point *)

Lemma dom_cspace_dict : dom cspace_dict = recognized.
Proof.
  unfold cspace_dict, recognized.
  rewrite !dom_insert_L, dom_singleton_L. set_solver.
Qed.

Lemma cspace_dict_unrecognized (label : string) :
  label ∉ recognized → cspace_dict !! label = None.
Proof. rewrite <- dom_cspace_dict. apply not_elem_of_dom. Qed.

Lemma cspace_dict_recognized (label : string) :
  label ∈ recognized →
  ∃ cspace, cspace_dict !! label = Some cspace ∧ in_enumeration cspace ∧
            (cspace = 7%Z ↔ label = "Gray").
Proof.
  unfold recognized, in_enumeration. intros Hin.
  repeat (apply elem_of_union in Hin as [Hin|Hin]);
    apply elem_of_singleton in Hin as ->;
    (eexists; split; [reflexivity|]; split; [lia|]; split; [lia|discriminate])
    || (exists 7%Z; split; [reflexivity|]; split; [lia|]; split; reflexivity).
Qed.

(** Only the first six sliders are read. *)
Lemma cspaceBounds_take cspace (slider_pos : list number) :
  (6 ≤ length slider_pos)%nat →
  __cspaceBounds cspace slider_pos = __cspaceBounds cspace (take 6 slider_pos).
Proof.
  intros Hlen.
  do 6 (destruct slider_pos as [|? slider_pos]; [cbn in Hlen; lia|]).
  reflexivity.
Qed.

Lemma cspaceBounds_short cspace (slider_pos : list number) :
  (length slider_pos < 6)%nat → __cspaceBounds cspace slider_pos = Raise IndexError.
Proof.
  intros Hlen.
  do 6 (destruct slider_pos as [|? slider_pos]; [reflexivity|]).
  cbn in Hlen. lia.
Qed.

Lemma cspaceBounds_long cspace (slider_pos : list number) :
  (6 ≤ length slider_pos)%nat →
  ∃ lowerb upperb, __cspaceBounds cspace slider_pos = Ok (lowerb, upperb).
Proof.
  intros Hlen. rewrite cspaceBounds_take by exact Hlen.
  apply cspaceBounds_returns. rewrite length_take. lia.
Qed.

(** The only exception [__cspaceBounds] raises is [IndexError], from a
    slider sequence that is too short. *)
Lemma cspaceBounds_raises cspace (slider_pos : list number) e :
  __cspaceBounds cspace slider_pos = Raise e → e = IndexError.
Proof.
  intros Hraise.
  destruct (decide (6 ≤ length slider_pos)%nat) as [Hlong|Hshort].
  - destruct (cspaceBounds_long cspace slider_pos Hlong) as (lowerb & upperb & Hok).
    rewrite Hok in Hraise. discriminate Hraise.
  - rewrite cspaceBounds_short in Hraise by lia. congruence.
Qed.

Section EntryPoint.

Context {Image : Type}.
Variable cvtColor : Image → ColorConversionCode → Image.

(** The label is resolved before anything else is evaluated. *)
Lemma main_unrecognized (inRange : Image → ndvalue → ndvalue → result Image)
    img (label : string) (slider_pos : list number) :
  label ∉ recognized →
  main cvtColor inRange img label slider_pos = Raise (KeyError (KStr label)).
Proof.
  intros Hout. unfold main.
  by rewrite (cspace_dict_unrecognized label Hout).
Qed.

Variable inRange : Image → ndvalue → ndvalue → Image.

(** A recognized label and at least six sliders: the run of [main],
    step by step, with a range test that accepts what it is given. *)
Lemma main_long img (cspace_label : string) (slider_pos : list number) :
  cspace_label ∈ recognized →
  (6 ≤ length slider_pos)%nat →
  ∃ cspace lowerb upperb img',
    cspace_dict !! cspace_label = Some cspace ∧
    __cspaceBounds cspace slider_pos = Ok (lowerb, upperb) ∧
    __cspaceSwitch cvtColor img cspace = Ok img' ∧
    main cvtColor (accepting inRange) img cspace_label slider_pos
    = Ok (inRange img' lowerb upperb, cspace_label, tolist lowerb, tolist upperb).
Proof.
  intros Hin Hlen. unfold main.
  destruct (cspace_dict_recognized cspace_label Hin) as (cspace & Hc & Henum & _).
  destruct (cspaceBounds_long cspace slider_pos Hlen) as (lowerb & upperb & Hb).
  destruct (cspaceSwitch_enumeration cvtColor img cspace Henum) as [img' Hs].
  exists cspace, lowerb, upperb, img'.
  do 3 (split; [assumption|]).
  rewrite Hc. cbn -[__cspaceBounds]. rewrite Hb. cbn.
  unfold __cspaceRange. rewrite Hs. reflexivity.
Qed.

Lemma main_short img (cspace_label : string) (slider_pos : list number) :
  cspace_label ∈ recognized →
  (length slider_pos < 6)%nat →
  main cvtColor (accepting inRange) img cspace_label slider_pos = Raise IndexError.
Proof.
  intros Hin Hlen. unfold main.
  destruct (cspace_dict_recognized cspace_label Hin) as (cspace & -> & _ & _).
  cbn -[__cspaceBounds]. by rewrite cspaceBounds_short.
Qed.

Lemma main_recognized_no_KeyError img (label : string) (slider_pos : list number) k :
  label ∈ recognized →
  main cvtColor (accepting inRange) img label slider_pos ≠ Raise (KeyError k).
Proof.
  intros Hin.
  destruct (decide (6 ≤ length slider_pos)%nat) as [Hlong|Hshort].
  - destruct (main_long img label slider_pos Hin Hlong) as (? & ? & ? & ? & _ & _ & _ & ->).
    discriminate.
  - rewrite main_short by (assumption || lia). discriminate.
Qed.

End EntryPoint.

(** C2. A label outside the eight recognized names makes the entry point
    fail with the invalid-label error [KeyError label], whatever the
    image and the sliders are (sliders that would fail on their own
    included), so no mask and no bounds come back. With a recognized
    label no [KeyError] is raised. *)
Theorem invalid_label_fails_first
    (Image : Type) (cvtColor : Image → ColorConversionCode → Image)
    (inRange : Image → ndvalue → ndvalue → Image)
    (img : Image) (cspace_label : string) (slider_pos : list number) :
  (cspace_label ∉ recognized →
     main cvtColor (accepting inRange) img cspace_label slider_pos
     = Raise (KeyError (KStr cspace_label)) ∧
     ∀ r, main cvtColor (accepting inRange) img cspace_label slider_pos ≠ Ok r) ∧
  (cspace_label ∈ recognized →
     ∀ k, main cvtColor (accepting inRange) img cspace_label slider_pos
          ≠ Raise (KeyError k)).
Proof.
  split.
  - intros Hout. rewrite (main_unrecognized cvtColor _ img _ _ Hout).
    split; [reflexivity|discriminate].
  - intros Hin k. by apply main_recognized_no_KeyError.
Qed.

Lemma invalid_label_fails_first_witness :
  (main Converted (accepting Thresholded) Input "CMYK" [int 0; int 50]
   = Raise (KeyError (KStr "CMYK")) ∧
   ∀ r, main Converted (accepting Thresholded) Input "CMYK" [int 0; int 50] ≠ Ok r) ∧
  ∀ k, main Converted (accepting Thresholded) Input "HSV"
         [int 0; int 100; int 0; int 100; int 0; int 100]
       ≠ Raise (KeyError k).
Proof.
  split.
  - apply (invalid_label_fails_first trace Converted Thresholded Input "CMYK"
             [int 0; int 50]).
    apply (bool_decide_unpack _). vm_compute. exact I.
  - apply (invalid_label_fails_first trace Converted Thresholded Input "HSV"
             [int 0; int 100; int 0; int 100; int 0; int 100]).
    apply (bool_decide_unpack _). vm_compute. exact I.
Defined.

(** C9. The labels the entry point accepts are exactly BGR, HSV, HLS,
    Lab, Luv, YCrCb, XYZ and Gray: these are the keys of its dictionary,
    and the invalid-label error is raised on a label if and only if the
    label is not one of them. The name Grayscale is not among them and
    fails with that error. *)
Theorem accepted_labels
    (Image : Type) (cvtColor : Image → ColorConversionCode → Image)
    (inRange : Image → ndvalue → ndvalue → Image)
    (img : Image) (cspace_label : string) (slider_pos : list number) :
  dom cspace_dict
  = {[ "BGR"; "HSV"; "HLS"; "Lab"; "Luv"; "YCrCb"; "XYZ"; "Gray" ]} ∧
  (main cvtColor (accepting inRange) img cspace_label slider_pos
   = Raise (KeyError (KStr cspace_label))
   ↔ cspace_label ∉ ({[ "BGR"; "HSV"; "HLS"; "Lab"; "Luv"; "YCrCb"; "XYZ"; "Gray" ]}
                      : gset string)) ∧
  main cvtColor (accepting inRange) img "Grayscale" slider_pos
  = Raise (KeyError (KStr "Grayscale")).
Proof.
  split; [exact dom_cspace_dict|]. split.
  - split.
    + intros Hraise Hin.
      by apply (main_recognized_no_KeyError cvtColor inRange img cspace_label
                  slider_pos (KStr cspace_label)).
    + apply main_unrecognized.
  - apply main_unrecognized. apply (bool_decide_unpack _). vm_compute. exact I.
Qed.




(** ** The scenarios of the specification *)

(** HSV with every range fully open: the bounds are the native range. *)
Example scenario_hsv_full_range :
  __cspaceBounds 1 [int 0; int 100; int 0; int 100; int 0; int 100]
  = Ok (Array (Float64Array [Fin 0; Fin 0; Fin 0]),
        Array (Float64Array [Fin 180; Fin 255; Fin 255])).
Proof. by vm_compute. Qed.

(** Lab with every range fully open. *)
Example scenario_lab_full_range :
  __cspaceBounds 3 [int 0; int 100; int 0; int 100; int 0; int 100]
  = Ok (Array (Float64Array [Fin 0; Fin 1; Fin 1]),
        Array (Float64Array [Fin 255; Fin 255; Fin 255])).
Proof. by vm_compute. Qed.

(** The entry point on the symbolic image: HSV converts and thresholds,
    BGR thresholds the input as it is; the bounds come back as lists of
    floats. *)
Example scenario_main_hsv :
  main Converted (accepting Thresholded) Input "HSV"
    [int 0; int 100; int 0; int 100; int 0; int 100]
  = Ok (Thresholded (Converted Input COLOR_BGR2HSV)
          (Array (Float64Array [Fin 0; Fin 0; Fin 0]))
          (Array (Float64Array [Fin 180; Fin 255; Fin 255])),
        "HSV",
        PyList [PFloat (Fin 0); PFloat (Fin 0); PFloat (Fin 0)],
        PyList [PFloat (Fin 180); PFloat (Fin 255); PFloat (Fin 255)]).
Proof. by vm_compute. Qed.

Example scenario_main_bgr :
  main Converted (accepting Thresholded) Input "BGR"
    [int 0; int 0; int 0; int 0; int 0; int 0]
  = Ok (Thresholded Input
          (Array (Float64Array [Fin 0; Fin 0; Fin 0]))
          (Array (Float64Array [Fin 0; Fin 0; Fin 0])),
        "BGR",
        PyList [PFloat (Fin 0); PFloat (Fin 0); PFloat (Fin 0)],
        PyList [PFloat (Fin 0); PFloat (Fin 0); PFloat (Fin 0)]).
Proof. by vm_compute. Qed.

(** The rounding on values whose binary64 neighbours are known: one
    tenth, a tie between two integers above 2^53, half of the smallest
    subnormal number, and the overflow threshold. *)
Example round64_reference_values :
  round64 (1 # 10) = Fin (3602879701896397 # 36028797018963968) ∧
  round64 (inject_Z (2 ^ 53 + 1)) = Fin (inject_Z (2 ^ 53)) ∧
  round64 (inject_Z (2 ^ 53 + 3)) = Fin (inject_Z (2 ^ 53 + 4)) ∧
  round64 (1 # 2 ^ 1075) = Fin 0 ∧
  round64 (inject_Z (2 ^ 1024 - 2 ^ 970)) = Inf false ∧
  round64 (inject_Z (2 ^ 1024 - 2 ^ 970 - 1)) = Fin (inject_Z (2 ^ 1024 - 2 ^ 971)).
Proof. repeat split; by vm_compute. Qed.

(** On the three native ranges, the scaling of every sample int agrees
    with the Standard Library's binary64 operations, both as the
    component of an [int64] array and as that of a [float64] array. *)
Example scaling_agrees_with_SpecFloat :
  forallb (λ '(mn, mx), forallb (agrees_on mn mx) sample_ints)
          [(0, 255); (0, 180); (1, 255)]%Z = true.
Proof. by vm_compute. Qed.

(** * Further properties of the four functions *)

(** ** [__cspaceBounds]: which sliders are read *)

(** X1. [__cspaceBounds] returns bounds exactly when the slider sequence
    has at least six entries, for every key; with fewer it raises
    [IndexError], and that is the only way it fails. *)
Theorem bounds_returns_iff_six_sliders cspace (slider_pos : list number) :
  ((∃ lowerb upperb, __cspaceBounds cspace slider_pos = Ok (lowerb, upperb))
   ↔ (6 ≤ length slider_pos)%nat) ∧
  (__cspaceBounds cspace slider_pos = Raise IndexError
   ↔ (length slider_pos < 6)%nat) ∧
  (∀ e, __cspaceBounds cspace slider_pos = Raise e → e = IndexError).
Proof.
  split; [|split].
  - split; [|apply cspaceBounds_long].
    intros (lowerb & upperb & Hok).
    destruct (decide (6 ≤ length slider_pos)%nat) as [|Hshort]; [assumption|].
    rewrite cspaceBounds_short in Hok by lia. discriminate Hok.
  - split; [|apply cspaceBounds_short].
    intros Hraise.
    destruct (decide (length slider_pos < 6)%nat) as [|Hlong]; [assumption|].
    destruct (cspaceBounds_long cspace slider_pos) as (lowerb & upperb & Hok); [lia|].
    rewrite Hok in Hraise. discriminate Hraise.
  - apply cspaceBounds_raises.
Qed.

(** X2. Sliders beyond the sixth are ignored: a sequence of six or more
    sliders yields the bounds of its first six. *)
Theorem bounds_ignore_extra_sliders cspace (slider_pos : list number) :
  (6 ≤ length slider_pos)%nat →
  __cspaceBounds cspace slider_pos = __cspaceBounds cspace (take 6 slider_pos) ∧
  ∃ lowerb upperb, __cspaceBounds cspace slider_pos = Ok (lowerb, upperb).
Proof.
  intros Hlen. split; [by apply cspaceBounds_take | by apply cspaceBounds_long].
Qed.

Lemma bounds_ignore_extra_sliders_witness :
  __cspaceBounds 1 [int 10; int 90; int 20; int 80; int 30; int 70; int 55; int 66]
  = __cspaceBounds 1
      (take 6 [int 10; int 90; int 20; int 80; int 30; int 70; int 55; int 66]) ∧
  ∃ lowerb upperb,
    __cspaceBounds 1 [int 10; int 90; int 20; int 80; int 30; int 70; int 55; int 66]
    = Ok (lowerb, upperb).
Proof.
  apply (bounds_ignore_extra_sliders 1
           [int 10; int 90; int 20; int 80; int 30; int 70; int 55; int 66]).
  cbn. lia.
Defined.

(** ** [__cspaceBounds]: channel by channel *)

Lemma flt_eq_le x y : flt_eq x y → flt_le x y ∧ flt_le y x.
Proof.
  destruct x as [a|[]|], y as [b|[]|]; cbn; try done. intros ->. split; lra.
Qed.

(** A number between two integers of magnitude at most [2^53] is
    small. *)
Lemma small_between (v : number) (a b : Z) :
  (- 2 ^ 53 ≤ a)%Z → (b ≤ 2 ^ 53)%Z →
  flt_le (Fin (inject_Z a)) (num_val v) →
  flt_le (num_val v) (Fin (inject_Z b)) →
  small v.
Proof.
  intros Ha Hb. destruct v as [n|x]; [|done]. cbn.
  rewrite <- !Zle_Qle. lia.
Qed.

(** X3. The ends of the slider scale hit the ends of the native range:
    with six sliders, a low slider at 0 puts the lower bound of its
    channel at the native minimum, and a high slider at 100 puts the
    upper bound at the native maximum. *)
Theorem bounds_endpoints cspace (slider_pos : list number) (ch : nat) :
  length slider_pos = 6%nat →
  (ch < 3)%nat →
  cspace ≠ 7%Z ∨ ch = 0%nat →
  ∃ lowerb upperb mn mx bl bu,
    __cspaceBounds cspace slider_pos = Ok (lowerb, upperb) ∧
    native_min cspace !! ch = Some mn ∧
    native_max cspace !! ch = Some mx ∧
    channel lowerb ch = Some bl ∧
    channel upperb ch = Some bu ∧
    (∀ lo, slider_pos !! (2 * ch)%nat = Some lo →
           flt_eq (num_val lo) (Fin 0) → flt_eq bl (Fin (inject_Z mn))) ∧
    (∀ hi, slider_pos !! (2 * ch + 1)%nat = Some hi →
           flt_eq (num_val hi) (Fin 100) → flt_eq bu (Fin (inject_Z mx))).
Proof.
  intros Hlen Hch Hgray.
  destruct (bounds_channels cspace slider_pos ch Hlen Hch Hgray)
    as (lowerb & upperb & mn & mx & lo & hi & bl & bu & Hb & Hmn & Hmx & Hrange
        & Hlo & Hhi & Hl & Hu & Hsl & Hsu).
  destruct (scale_ends cspace ch mn mx Hmn Hmx) as (E0 & E100 & _ & _).
  exists lowerb, upperb, mn, mx, bl, bu.
  do 5 (split; [assumption|]). split.
  - intros lo' Hlo' H0. simplify_eq.
    apply flt_eq_le in H0 as [H1 H2].
    rewrite Hsl by (by apply (small_between lo 0 0)).
    rewrite <- E0. apply flt_le_antisym; apply scale_mono; first [lia | assumption].
  - intros hi' Hhi' H100. simplify_eq.
    apply flt_eq_le in H100 as [H1 H2].
    rewrite Hsu by (by apply (small_between hi 100 100)).
    rewrite <- E100. apply flt_le_antisym; apply scale_mono; first [lia | assumption].
Qed.

Lemma bounds_endpoints_witness :
  ∃ lowerb upperb mn mx bl bu,
    __cspaceBounds 3 [int 0; int 100; PFloat (Fin 0); PFloat (Fin 100); int 0; int 100]
    = Ok (lowerb, upperb) ∧
    native_min 3 !! 1%nat = Some mn ∧
    native_max 3 !! 1%nat = Some mx ∧
    channel lowerb 1 = Some bl ∧
    channel upperb 1 = Some bu ∧
    (∀ lo, [int 0; int 100; PFloat (Fin 0); PFloat (Fin 100); int 0; int 100]
             !! (2 * 1)%nat = Some lo →
           flt_eq (num_val lo) (Fin 0) → flt_eq bl (Fin (inject_Z mn))) ∧
    (∀ hi, [int 0; int 100; PFloat (Fin 0); PFloat (Fin 100); int 0; int 100]
             !! (2 * 1 + 1)%nat = Some hi →
           flt_eq (num_val hi) (Fin 100) → flt_eq bu (Fin (inject_Z mx))).
Proof.
  apply (bounds_endpoints 3
           [int 0; int 100; PFloat (Fin 0); PFloat (Fin 100); int 0; int 100] 1).
  - reflexivity.
  - lia.
  - left. lia.
Defined.

(** X4. Sliders inside [0,100] give bounds inside the native range: with
    six sliders, if the two sliders of a channel lie in [0,100], the
    lower and the upper bound of that channel lie between the native
    minimum and maximum of the channel. *)
Theorem bounds_within_native_range cspace (slider_pos : list number) (ch : nat) lo hi :
  length slider_pos = 6%nat →
  (ch < 3)%nat →
  cspace ≠ 7%Z ∨ ch = 0%nat →
  slider_pos !! (2 * ch)%nat = Some lo →
  slider_pos !! (2 * ch + 1)%nat = Some hi →
  flt_le (Fin 0) (num_val lo) ∧ flt_le (num_val lo) (Fin 100) →
  flt_le (Fin 0) (num_val hi) ∧ flt_le (num_val hi) (Fin 100) →
  ∃ lowerb upperb mn mx bl bu,
    __cspaceBounds cspace slider_pos = Ok (lowerb, upperb) ∧
    native_min cspace !! ch = Some mn ∧
    native_max cspace !! ch = Some mx ∧
    channel lowerb ch = Some bl ∧
    channel upperb ch = Some bu ∧
    (flt_le (Fin (inject_Z mn)) bl ∧ flt_le bl (Fin (inject_Z mx))) ∧
    (flt_le (Fin (inject_Z mn)) bu ∧ flt_le bu (Fin (inject_Z mx))).
Proof.
  intros Hlen Hch Hgray Hlo Hhi [Hlo0 Hlo100] [Hhi0 Hhi100].
  destruct (bounds_channels cspace slider_pos ch Hlen Hch Hgray)
    as (lowerb & upperb & mn & mx & lo' & hi' & bl & bu & Hb & Hmn & Hmx & Hrange
        & Hlo' & Hhi' & Hl & Hu & Hsl & Hsu).
  simplify_eq.
  destruct (scale_ends cspace ch mn mx Hmn Hmx) as (E0 & E100 & _ & _).
  exists lowerb, upperb, mn, mx, bl, bu.
  do 5 (split; [assumption|]).
  rewrite Hsl by (by apply (small_between lo 0 100)).
  rewrite Hsu by (by apply (small_between hi 0 100)).
  rewrite <- E0, <- E100.
  repeat split; apply scale_mono; first [lia | assumption].
Qed.

Lemma bounds_within_native_range_witness :
  ∃ lowerb upperb mn mx bl bu,
    __cspaceBounds 1 [int 10; PFloat (Fin (181 # 2)); int 20; int 80; int 30; int 70]
    = Ok (lowerb, upperb) ∧
    native_min 1 !! 0%nat = Some mn ∧
    native_max 1 !! 0%nat = Some mx ∧
    channel lowerb 0 = Some bl ∧
    channel upperb 0 = Some bu ∧
    (flt_le (Fin (inject_Z mn)) bl ∧ flt_le bl (Fin (inject_Z mx))) ∧
    (flt_le (Fin (inject_Z mn)) bu ∧ flt_le bu (Fin (inject_Z mx))).
Proof.
  apply (bounds_within_native_range 1
           [int 10; PFloat (Fin (181 # 2)); int 20; int 80; int 30; int 70] 0
           (int 10) (PFloat (Fin (181 # 2)))).
  - reflexivity.
  - lia.
  - left. lia.
  - reflexivity.
  - reflexivity.
  - split; by_evaluation.
  - split; by_evaluation.
Defined.

Lemma flt_ltb_lt x y : flt_ltb x y = true → flt_lt x y.
Proof.
  destruct x as [a|[]|], y as [b|[]|]; cbn; try done.
  intros H. apply negb_true_iff in H.
  destruct (Qlt_le_dec a b) as [|Hle]; [assumption|].
  apply Qle_bool_iff in Hle. congruence.
Qed.

(** On the slider scale 0..100 every step of one position raises the
    scaled value, on every native range. *)
Lemma scale_step cspace (ch : nat) (mn mx z : Z) :
  native_min cspace !! ch = Some mn →
  native_max cspace !! ch = Some mx →
  (0 ≤ z < 100)%Z →
  flt_lt (scale (Fin (inject_Z z)) mn mx) (scale (Fin (inject_Z (z + 1))) mn mx).
Proof.
  intros Hmn Hmx Hz.
  assert (steps_up mn mx (seqZ 0 100) = true) as Hall.
  { pose proof (native_range_cases cspace ch mn mx Hmn Hmx) as Hcases.
    repeat (apply elem_of_cons in Hcases as [[= -> ->]|Hcases];
            [by vm_compute|]).
    by apply elem_of_nil in Hcases. }
  unfold steps_up in Hall. rewrite forallb_forall in Hall.
  apply flt_ltb_lt, Hall, list_elem_of_In, elem_of_seqZ. lia.
Qed.

Lemma scale_strict cspace (ch : nat) (mn mx z z' : Z) :
  native_min cspace !! ch = Some mn →
  native_max cspace !! ch = Some mx →
  (0 ≤ z)%Z → (z < z')%Z → (z' ≤ 100)%Z →
  flt_lt (scale (Fin (inject_Z z)) mn mx) (scale (Fin (inject_Z z')) mn mx).
Proof.
  intros Hmn Hmx H0 Hlt H100.
  pose proof (native_range cspace ch mn mx Hmn Hmx) as Hrange.
  eapply flt_lt_le_trans; [apply (scale_step cspace ch); [assumption..|lia]|].
  apply scale_mono; [lia|lia|]. cbn. rewrite <- Zle_Qle. lia.
Qed.

(** X5. The order of a slider pair is kept: with six sliders, if the two
    sliders of a channel are floats or ints of magnitude at most [2^53]
    and the low one does not exceed the high one, the lower bound of
    the channel does not exceed its upper bound; if the low one is not
    below the high one, neither is the lower bound below the upper
    one; and on the slider scale, for int sliders from 0 to 100, a low
    slider above the high one gives crossed bounds. *)
Theorem bounds_keep_pair_order cspace (slider_pos : list number) (ch : nat) lo hi :
  length slider_pos = 6%nat →
  (ch < 3)%nat →
  cspace ≠ 7%Z ∨ ch = 0%nat →
  slider_pos !! (2 * ch)%nat = Some lo →
  slider_pos !! (2 * ch + 1)%nat = Some hi →
  small lo →
  small hi →
  ∃ lowerb upperb bl bu,
    __cspaceBounds cspace slider_pos = Ok (lowerb, upperb) ∧
    channel lowerb ch = Some bl ∧
    channel upperb ch = Some bu ∧
    (flt_le (num_val lo) (num_val hi) → flt_le bl bu) ∧
    (flt_le (num_val hi) (num_val lo) → flt_le bu bl) ∧
    (∀ zl zh, lo = int zl → hi = int zh → (0 ≤ zh)%Z → (zh < zl)%Z → (zl ≤ 100)%Z →
              flt_lt bu bl).
Proof.
  intros Hlen Hch Hgray Hlo Hhi Hsl Hsh.
  destruct (bounds_channels cspace slider_pos ch Hlen Hch Hgray)
    as (lowerb & upperb & mn & mx & lo' & hi' & bl & bu & Hb & Hmn & Hmx & Hrange
        & Hlo' & Hhi' & Hl & Hu & El & Eu).
  simplify_eq.
  exists lowerb, upperb, bl, bu.
  do 3 (split; [assumption|]).
  rewrite (El Hsl), (Eu Hsh).
  split; [|split].
  - intros Hle. apply scale_mono; [lia|lia|exact Hle].
  - intros Hle. apply scale_mono; [lia|lia|exact Hle].
  - intros zl zh -> -> H0 Hlt H100. cbn.
    rewrite !int64_val_small by lia.
    by apply (scale_strict cspace ch).
Qed.

Lemma bounds_keep_pair_order_witness :
  ∃ lowerb upperb bl bu,
    __cspaceBounds 7 [int 25; int 75; int 0; int 0; int 0; int 0] = Ok (lowerb, upperb) ∧
    channel lowerb 0 = Some bl ∧
    channel upperb 0 = Some bu ∧
    (flt_le (num_val (int 25)) (num_val (int 75)) → flt_le bl bu) ∧
    (flt_le (num_val (int 75)) (num_val (int 25)) → flt_le bu bl) ∧
    (∀ zl zh, int 25 = int zl → int 75 = int zh →
              (0 ≤ zh)%Z → (zh < zl)%Z → (zl ≤ 100)%Z → flt_lt bu bl).
Proof.
  apply (bounds_keep_pair_order 7 [int 25; int 75; int 0; int 0; int 0; int 0] 0
           (int 25) (int 75)).
  - reflexivity.
  - lia.
  - right. reflexivity.
  - reflexivity.
  - reflexivity.
  - by_evaluation.
  - by_evaluation.
Defined.

(** X6. On the slider scale different positions never collapse to one
    bound: for two six-slider sequences and a channel whose sliders are
    ints from 0 to 100, a smaller low slider gives a strictly smaller
    lower bound, so the lower bounds agree only if the low sliders
    agree; likewise for the high sliders and the upper bounds. *)
Theorem bounds_injective cspace (slider_pos slider_pos' : list number) (ch : nat)
    (lo hi lo' hi' : Z) :
  length slider_pos = 6%nat →
  length slider_pos' = 6%nat →
  (ch < 3)%nat →
  cspace ≠ 7%Z ∨ ch = 0%nat →
  slider_pos !! (2 * ch)%nat = Some (int lo) →
  slider_pos !! (2 * ch + 1)%nat = Some (int hi) →
  slider_pos' !! (2 * ch)%nat = Some (int lo') →
  slider_pos' !! (2 * ch + 1)%nat = Some (int hi') →
  (0 ≤ lo ≤ 100 ∧ 0 ≤ lo' ≤ 100)%Z →
  (0 ≤ hi ≤ 100 ∧ 0 ≤ hi' ≤ 100)%Z →
  ∃ lowerb upperb lowerb' upperb' bl bu bl' bu',
    __cspaceBounds cspace slider_pos = Ok (lowerb, upperb) ∧
    __cspaceBounds cspace slider_pos' = Ok (lowerb', upperb') ∧
    channel lowerb ch = Some bl ∧ channel upperb ch = Some bu ∧
    channel lowerb' ch = Some bl' ∧ channel upperb' ch = Some bu' ∧
    ((lo < lo')%Z → flt_lt bl bl') ∧
    (flt_eq bl bl' → lo = lo') ∧
    ((hi < hi')%Z → flt_lt bu bu') ∧
    (flt_eq bu bu' → hi = hi').
Proof.
  intros Hlen Hlen' Hch Hgray Hlo Hhi Hlo' Hhi' [Rl Rl'] [Rh Rh'].
  destruct (bounds_channels cspace slider_pos ch Hlen Hch Hgray)
    as (lowerb & upperb & mn & mx & l & h & bl & bu & Hb & Hmn & Hmx & Hrange
        & Hl & Hh & Hcl & Hcu & El & Eu).
  destruct (bounds_channels cspace slider_pos' ch Hlen' Hch Hgray)
    as (lowerb' & upperb' & mn' & mx' & l' & h' & bl' & bu' & Hb' & Hmn' & Hmx' & _
        & Hl' & Hh' & Hcl' & Hcu' & El' & Eu').
  simplify_eq.
  exists lowerb, upperb, lowerb', upperb', bl, bu, bl', bu'.
  do 6 (split; [assumption|]).
  assert (∀ z, (0 ≤ z ≤ 100)%Z → small (int z) ∧ num_val (int z) = Fin (inject_Z z))
    as Hint.
  { intros z Hz. cbn. rewrite int64_val_small by lia. split; [lia|reflexivity]. }
  destruct (Hint lo Rl) as [Sl Vl]. destruct (Hint lo' Rl') as [Sl' Vl'].
  destruct (Hint hi Rh) as [Sh Vh]. destruct (Hint hi' Rh') as [Sh' Vh'].
  rewrite (El Sl), (El' Sl'), (Eu Sh), (Eu' Sh'), Vl, Vl', Vh, Vh'.
  assert (∀ a b, (0 ≤ a ≤ 100)%Z → (0 ≤ b ≤ 100)%Z →
                 flt_eq (scale (Fin (inject_Z a)) mn mx) (scale (Fin (inject_Z b)) mn mx) →
                 a = b) as Hinj.
  { intros a b Ha Hb0 Heq.
    destruct (Z.lt_trichotomy a b) as [Hlt|[?|Hgt]]; [|assumption|].
    - pose proof (scale_strict cspace ch mn mx a b Hmn Hmx) as Hs.
      by apply flt_lt_not_eq in Hs; [|lia..].
    - pose proof (scale_strict cspace ch mn mx b a Hmn Hmx) as Hs.
      apply flt_lt_not_eq in Hs; [|lia..]. destruct Hs.
      apply flt_eq_le in Heq as [? ?]. by apply flt_le_antisym. }
  repeat split.
  - intros Hlt. apply (scale_strict cspace ch); first [assumption | lia].
  - by apply Hinj.
  - intros Hlt. apply (scale_strict cspace ch); first [assumption | lia].
  - by apply Hinj.
Qed.

Lemma bounds_injective_witness :
  ∃ lowerb upperb lowerb' upperb' bl bu bl' bu',
    __cspaceBounds 2 [int 10; int 90; int 20; int 80; int 30; int 70]
    = Ok (lowerb, upperb) ∧
    __cspaceBounds 2 [int 10; int 90; int 25; int 85; int 30; int 70]
    = Ok (lowerb', upperb') ∧
    channel lowerb 1 = Some bl ∧ channel upperb 1 = Some bu ∧
    channel lowerb' 1 = Some bl' ∧ channel upperb' 1 = Some bu' ∧
    ((20 < 25)%Z → flt_lt bl bl') ∧
    (flt_eq bl bl' → 20%Z = 25%Z) ∧
    ((80 < 85)%Z → flt_lt bu bu') ∧
    (flt_eq bu bu' → 80%Z = 85%Z).
Proof.
  apply (bounds_injective 2 [int 10; int 90; int 20; int 80; int 30; int 70]
           [int 10; int 90; int 25; int 85; int 30; int 70] 1 20 80 25 85).
  - reflexivity.
  - reflexivity.
  - lia.
  - left. lia.
  - reflexivity.
  - reflexivity.
  - reflexivity.
  - reflexivity.
  - lia.
  - lia.
Defined.

(** X7. Channels do not interfere: with six sliders, moving the slider
    at index [j] changes no bound of another slider that is a float or
    an int of magnitude at most [2^53]. The lower bound of a channel
    whose low slider is another one, and the upper bound of a channel
    whose high slider is another one, are what they were. *)
Theorem bounds_channels_independent cspace (slider_pos : list number) (j : nat)
    (v : number) :
  length slider_pos = 6%nat →
  ∃ lowerb upperb lowerb' upperb',
    __cspaceBounds cspace slider_pos = Ok (lowerb, upperb) ∧
    __cspaceBounds cspace (<[j := v]> slider_pos) = Ok (lowerb', upperb') ∧
    (∀ ch lo, j ≠ (2 * ch)%nat → slider_pos !! (2 * ch)%nat = Some lo → small lo →
              channel lowerb' ch = channel lowerb ch) ∧
    (∀ ch hi, j ≠ (2 * ch + 1)%nat → slider_pos !! (2 * ch + 1)%nat = Some hi →
              small hi → channel upperb' ch = channel upperb ch).
Proof.
  intros Hlen.
  assert (length (<[j := v]> slider_pos) = 6%nat) as Hlen'
    by (by rewrite length_insert).
  destruct (cspaceBounds_returns cspace slider_pos Hlen) as (lowerb & upperb & Hb).
  destruct (cspaceBounds_returns cspace _ Hlen') as (lowerb' & upperb' & Hb').
  exists lowerb, upperb, lowerb', upperb'.
  do 2 (split; [assumption|]).
  assert (∀ ch, (ch < 3)%nat →
            cspace ≠ 7%Z ∨ ch = 0%nat ∨
            (channel lowerb ch = None ∧ channel lowerb' ch = None ∧
             channel upperb ch = None ∧ channel upperb' ch = None)) as Hcases.
  { intros ch Hch. destruct (decide (cspace = 7%Z)) as [->|]; [|by left].
    destruct (decide (ch = 0%nat)) as [|Hne]; [by right; left|]. right; right.
    destruct (gray_channel _ _ _ ch Hlen Hb Hne) as [-> ->].
    by destruct (gray_channel _ _ _ ch Hlen' Hb' Hne) as [-> ->]. }
  split.
  - intros ch lo Hj Hlo Hs.
    assert (ch < 3)%nat as Hch by (apply lookup_lt_Some in Hlo; lia).
    destruct (Hcases ch Hch) as [Hg|[Hg|(-> & -> & _)]]; [| |reflexivity].
    all: destruct (bounds_channels cspace slider_pos ch Hlen Hch ltac:(tauto))
           as (? & ? & mn & mx & l & ? & bl & ? & E & Hmn & Hmx & _ & Hl & _ & Hc & _
               & El & _);
         destruct (bounds_channels cspace _ ch Hlen' Hch ltac:(tauto))
           as (? & ? & mn' & mx' & l' & ? & bl' & ? & E' & Hmn' & Hmx' & _ & Hl' & _ & Hc'
               & _ & El' & _);
         rewrite list_lookup_insert_ne in Hl' by done;
         rewrite Hb in E; rewrite Hb' in E'; simplify_eq;
         rewrite Hc, Hc', (El Hs), (El' Hs); reflexivity.
  - intros ch hi Hj Hhi Hs.
    assert (ch < 3)%nat as Hch by (apply lookup_lt_Some in Hhi; lia).
    destruct (Hcases ch Hch) as [Hg|[Hg|(_ & _ & -> & ->)]]; [| |reflexivity].
    all: destruct (bounds_channels cspace slider_pos ch Hlen Hch ltac:(tauto))
           as (? & ? & mn & mx & ? & h & ? & bu & E & Hmn & Hmx & _ & _ & Hh & _ & Hc
               & _ & Eu);
         destruct (bounds_channels cspace _ ch Hlen' Hch ltac:(tauto))
           as (? & ? & mn' & mx' & ? & h' & ? & bu' & E' & Hmn' & Hmx' & _ & _ & Hh' & _
               & Hc' & _ & Eu');
         rewrite list_lookup_insert_ne in Hh' by done;
         rewrite Hb in E; rewrite Hb' in E'; simplify_eq;
         rewrite Hc, Hc', (Eu Hs), (Eu' Hs); reflexivity.
Qed.

Lemma bounds_channels_independent_witness :
  ∃ lowerb upperb lowerb' upperb',
    __cspaceBounds 1 [int 10; int 90; int 20; int 80; int 30; int 70]
    = Ok (lowerb, upperb) ∧
    __cspaceBounds 1 (<[3%nat := PFloat (Fin (111 # 2))]>
                        [int 10; int 90; int 20; int 80; int 30; int 70])
    = Ok (lowerb', upperb') ∧
    (∀ ch lo, 3%nat ≠ (2 * ch)%nat →
              [int 10; int 90; int 20; int 80; int 30; int 70] !! (2 * ch)%nat = Some lo →
              small lo → channel lowerb' ch = channel lowerb ch) ∧
    (∀ ch hi, 3%nat ≠ (2 * ch + 1)%nat →
              [int 10; int 90; int 20; int 80; int 30; int 70] !! (2 * ch + 1)%nat = Some hi →
              small hi → channel upperb' ch = channel upperb ch).
Proof.
  apply (bounds_channels_independent 1
           [int 10; int 90; int 20; int 80; int 30; int 70] 3 (PFloat (Fin (111 # 2)))).
  reflexivity.
Defined.

(** X8. Only Lab, HSV, HLS and Grayscale are treated specially. Every
    other key, inside the enumeration (Luv, YCrCb, XYZ) or not, gets
    the bounds of BGR for the same sliders; HLS gets those of HSV; and
    the Grayscale bounds are the first components of the BGR bounds. *)
Theorem bounds_shared_ranges cspace (slider_pos : list number) :
  cspace ≠ 1%Z → cspace ≠ 2%Z → cspace ≠ 3%Z → cspace ≠ 7%Z →
  __cspaceBounds cspace slider_pos = __cspaceBounds 0 slider_pos ∧
  __cspaceBounds 2 slider_pos = __cspaceBounds 1 slider_pos ∧
  ((6 ≤ length slider_pos)%nat →
   ∃ lowerb upperb l0 u0,
     __cspaceBounds 0 slider_pos = Ok (Array lowerb, Array upperb) ∧
     nd_getitem lowerb 0 = Ok l0 ∧
     nd_getitem upperb 0 = Ok u0 ∧
     __cspaceBounds 7 slider_pos = Ok (Scalar l0, Scalar u0)).
Proof.
  intros H1 H2 H3 H7. split; [|split].
  - by apply cspaceBounds_default.
  - reflexivity.
  - intros Hlen.
    rewrite (cspaceBounds_take 0), (cspaceBounds_take 7) by exact Hlen.
    destruct (six_sliders (take 6 slider_pos)) as (s0 & s1 & s2 & s3 & s4 & s5 & ->).
    { rewrite length_take. lia. }
    destruct (cspaceBounds_six 0 s0 s1 s2 s3 s4 s5)
      as (l0 & l1 & l2 & u0 & u1 & u2 & Hl & Hu & ->).
    destruct (cspaceBounds_gray s0 s1 s2 s3 s4 s5)
      as (l0' & l1' & l2' & u0' & u1' & u2' & Hl' & Hu' & ->).
    change (native_min 7) with (native_min 0) in Hl', Hu'.
    change (native_max 7) with (native_max 0) in Hl', Hu'.
    rewrite Hl in Hl'. rewrite Hu in Hu'. simplify_eq.
    by eexists _, _, _, _.
Qed.

Lemma bounds_shared_ranges_witness :
  __cspaceBounds 4 [int 10; int 90; int 20; int 80; int 30; int 70]
  = __cspaceBounds 0 [int 10; int 90; int 20; int 80; int 30; int 70] ∧
  __cspaceBounds 2 [int 10; int 90; int 20; int 80; int 30; int 70]
  = __cspaceBounds 1 [int 10; int 90; int 20; int 80; int 30; int 70] ∧
  ∃ lowerb upperb l0 u0,
    __cspaceBounds 0 [int 10; int 90; int 20; int 80; int 30; int 70]
    = Ok (Array lowerb, Array upperb) ∧
    nd_getitem lowerb 0 = Ok l0 ∧
    nd_getitem upperb 0 = Ok u0 ∧
    __cspaceBounds 7 [int 10; int 90; int 20; int 80; int 30; int 70]
    = Ok (Scalar l0, Scalar u0).
Proof.
  destruct (bounds_shared_ranges 4 [int 10; int 90; int 20; int 80; int 30; int 70])
    as (Hdefault & Hhls & Hgray); [lia | lia | lia | lia |].
  split; [exact Hdefault|]. split; [exact Hhls|].
  apply Hgray. cbn. lia.
Defined.

(** ** [__cspaceSwitch] and [__cspaceRange] *)

(** X9. [__cspaceSwitch] returns an image exactly for the keys 0 to 7,
    and any failure is a [KeyError] on the key. Each of the keys 1 to 7
    applies the conversion primitive once to the input, with a code of
    its own: two such keys that use the same code are the same key. *)
Theorem switch_dispatch (Image : Type) (cvtColor : Image → ColorConversionCode → Image)
    (img : Image) (cspace cspace' : Z) :
  ((∃ img', __cspaceSwitch cvtColor img cspace = Ok img') ↔ in_enumeration cspace) ∧
  (∀ e, __cspaceSwitch cvtColor img cspace = Raise e → e = KeyError (KInt cspace)) ∧
  ((1 ≤ cspace ≤ 7)%Z → (1 ≤ cspace' ≤ 7)%Z →
   ∃ code code',
     __cspaceSwitch cvtColor img cspace = Ok (cvtColor img code) ∧
     __cspaceSwitch cvtColor img cspace' = Ok (cvtColor img code') ∧
     (code = code' → cspace = cspace')).
Proof.
  split; [|split].
  - split; [|apply cspaceSwitch_enumeration].
    intros [img' Hok].
    destruct (decide (in_enumeration cspace)) as [|Hout]; [assumption|].
    rewrite cspaceSwitch_outside in Hok by exact Hout. discriminate Hok.
  - intros e Hraise.
    destruct (decide (in_enumeration cspace)) as [Hin|Hout].
    + destruct (cspaceSwitch_enumeration cvtColor img cspace Hin) as [img' Hok].
      rewrite Hok in Hraise. discriminate Hraise.
    + rewrite cspaceSwitch_outside in Hraise by exact Hout. congruence.
  - intros Hc Hc'.
    assert (cspace ∈ [1; 2; 3; 4; 5; 6; 7]%Z) as Hcases
      by (rewrite !elem_of_cons; lia).
    assert (cspace' ∈ [1; 2; 3; 4; 5; 6; 7]%Z) as Hcases'
      by (rewrite !elem_of_cons; lia).
    repeat (apply elem_of_cons in Hcases as [->|Hcases]);
      try (by apply elem_of_nil in Hcases);
      repeat (apply elem_of_cons in Hcases' as [->|Hcases']);
      try (by apply elem_of_nil in Hcases');
      (eexists _, _; split; [reflexivity|]; split; [reflexivity|]);
      first [reflexivity | discriminate].
Qed.

Lemma switch_dispatch_witness :
  ∃ code code',
    __cspaceSwitch Converted Input 1 = Ok (Converted Input code) ∧
    __cspaceSwitch Converted Input 7 = Ok (Converted Input code') ∧
    (code = code' → 1%Z = 7%Z).
Proof.
  apply (switch_dispatch trace Converted Input 1 7); lia.
Defined.

(** X10. What [__cspaceRange] does is decided by the key and by the
    range test. For a key from 0 to 7 its outcome is the outcome of the
    range test on the converted image, with the two bounds as they were
    passed: the mask, or the error the range test raises when it
    rejects them. For any other key it is the [KeyError] of the
    conversion, and it returns a mask for no such key. *)
Theorem range_thresholds_converted (Image : Type)
    (cvtColor : Image → ColorConversionCode → Image)
    (inRange : Image → ndvalue → ndvalue → result Image)
    (img : Image) (cspace : Z) (lowerb upperb : ndvalue) :
  (in_enumeration cspace →
   ∃ img', __cspaceSwitch cvtColor img cspace = Ok img' ∧
           __cspaceRange cvtColor inRange img cspace lowerb upperb
           = inRange img' lowerb upperb) ∧
  (¬ in_enumeration cspace →
   __cspaceRange cvtColor inRange img cspace lowerb upperb
   = Raise (KeyError (KInt cspace))) ∧
  ((∃ bin_img, __cspaceRange cvtColor inRange img cspace lowerb upperb = Ok bin_img)
   → in_enumeration cspace).
Proof.
  split; [|split].
  - intros Hin.
    destruct (cspaceSwitch_enumeration cvtColor img cspace Hin) as [img' Hs].
    exists img'. split; [assumption|]. by apply cspaceRange_converted.
  - apply cspaceRange_outside.
  - intros [bin_img Hok].
    destruct (decide (in_enumeration cspace)) as [|Hout]; [assumption|].
    rewrite cspaceRange_outside in Hok by exact Hout. discriminate Hok.
Qed.

Lemma range_thresholds_converted_witness :
  ∃ img', __cspaceSwitch Converted Input 1 = Ok img' ∧
          __cspaceRange Converted (λ _ _ _, Raise CvError) Input 1
            (Scalar (int 0)) (Scalar (int 255))
          = (λ _ _ _, Raise CvError) img' (Scalar (int 0)) (Scalar (int 255)).
Proof.
  apply (range_thresholds_converted trace Converted (λ _ _ _, Raise CvError) Input 1
           (Scalar (int 0)) (Scalar (int 255))).
  unfold in_enumeration. lia.
Defined.

(** ** [main] *)

(** X11. The three outcomes of the entry point, with a range test that
    accepts what it is given. It raises [IndexError] exactly when the
    label is recognized and there are fewer than six sliders, and it
    returns exactly when the label is recognized and there are at least
    six; the remaining case is the [KeyError] on the label. *)
Theorem main_outcomes (Image : Type)
    (cvtColor : Image → ColorConversionCode → Image)
    (inRange : Image → ndvalue → ndvalue → Image)
    (img : Image) (cspace_label : string) (slider_pos : list number) :
  (main cvtColor (accepting inRange) img cspace_label slider_pos = Raise IndexError
   ↔ cspace_label ∈ recognized ∧ (length slider_pos < 6)%nat) ∧
  ((∃ r, main cvtColor (accepting inRange) img cspace_label slider_pos = Ok r)
   ↔ cspace_label ∈ recognized ∧ (6 ≤ length slider_pos)%nat) ∧
  (∀ e, main cvtColor (accepting inRange) img cspace_label slider_pos = Raise e →
        e = IndexError ∨ e = KeyError (KStr cspace_label)).
Proof.
  destruct (decide (cspace_label ∈ recognized)) as [Hin|Hout].
  - destruct (decide (6 ≤ length slider_pos)%nat) as [Hlong|Hshort].
    + destruct (main_long cvtColor inRange img cspace_label slider_pos Hin Hlong)
        as (? & ? & ? & ? & _ & _ & _ & ->).
      split; [|split].
      * split; [discriminate | lia].
      * split; [done | by eexists].
      * intros e [=].
    + rewrite main_short by (assumption || lia). split; [|split].
      * split; [intros _; split; [assumption | lia] | done].
      * split; [intros [r [=]] | lia].
      * intros e [= <-]. by left.
  - rewrite (main_unrecognized cvtColor _ img _ _ Hout). split; [|split].
    + split; [discriminate | tauto].
    + split; [intros [r [=]] | tauto].
    + intros e [= <-]. by right.
Qed.

(** X12. What the entry point hands back is what it thresholded with.
    For a recognized label and at least six sliders, the mask is the
    range test on the converted image with the bounds computed from the
    sliders, the label is returned as given, and the two lists are
    those same bounds through [tolist]. *)
Theorem main_returns_bounds_used (Image : Type)
    (cvtColor : Image → ColorConversionCode → Image)
    (inRange : Image → ndvalue → ndvalue → Image)
    (img : Image) (cspace_label : string) (slider_pos : list number) :
  cspace_label ∈ recognized →
  (6 ≤ length slider_pos)%nat →
  ∃ cspace lowerb upperb img',
    cspace_dict !! cspace_label = Some cspace ∧
    __cspaceBounds cspace slider_pos = Ok (lowerb, upperb) ∧
    __cspaceSwitch cvtColor img cspace = Ok img' ∧
    main cvtColor (accepting inRange) img cspace_label slider_pos
    = Ok (inRange img' lowerb upperb, cspace_label, tolist lowerb, tolist upperb).
Proof. apply main_long. Qed.

Lemma main_returns_bounds_used_witness :
  ∃ cspace lowerb upperb img',
    cspace_dict !! "Lab" = Some cspace ∧
    __cspaceBounds cspace [int 10; int 90; int 20; int 80; int 30; int 70; int 5]
    = Ok (lowerb, upperb) ∧
    __cspaceSwitch Converted Input cspace = Ok img' ∧
    main Converted (accepting Thresholded) Input "Lab"
      [int 10; int 90; int 20; int 80; int 30; int 70; int 5]
    = Ok (Thresholded img' lowerb upperb, "Lab", tolist lowerb, tolist upperb).
Proof.
  apply (main_returns_bounds_used trace Converted Thresholded Input "Lab"
           [int 10; int 90; int 20; int 80; int 30; int 70; int 5]).
  - apply (bool_decide_unpack _). vm_compute. exact I.
  - cbn. lia.
Defined.

(** X13. The label and the two bound lists returned by the entry point
    depend on the label and the sliders alone: two calls with the same
    label and sliders, on any two images and with any conversion and
    accepting range-test primitives, fail with the same exception or
    return the same label, lower list and upper list. *)
Theorem main_bounds_independent_of_image (Image Image' : Type)
    (cvtColor : Image → ColorConversionCode → Image)
    (inRange : Image → ndvalue → ndvalue → Image)
    (cvtColor' : Image' → ColorConversionCode → Image')
    (inRange' : Image' → ndvalue → ndvalue → Image')
    (img : Image) (img' : Image') (cspace_label : string) (slider_pos : list number) :
  match main cvtColor (accepting inRange) img cspace_label slider_pos,
        main cvtColor' (accepting inRange') img' cspace_label slider_pos with
  | Ok (_, label, lowerb, upperb), Ok (_, label', lowerb', upperb') =>
      label = label' ∧ lowerb = lowerb' ∧ upperb = upperb'
  | Raise e, Raise e' => e = e'
  | _, _ => False
  end.
Proof.
  destruct (decide (cspace_label ∈ recognized)) as [Hin|Hout].
  - destruct (decide (6 ≤ length slider_pos)%nat) as [Hlong|Hshort].
    + destruct (main_long cvtColor inRange img cspace_label slider_pos Hin Hlong)
        as (cspace & lowerb & upperb & i & Hc & Hb & _ & ->).
      destruct (main_long cvtColor' inRange' img' cspace_label slider_pos Hin Hlong)
        as (cspace' & lowerb' & upperb' & i' & Hc' & Hb' & _ & ->).
      rewrite Hc in Hc'. injection Hc' as <-.
      rewrite Hb in Hb'. injection Hb' as <- <-.
      repeat split.
    + rewrite !main_short by (assumption || lia). reflexivity.
  - rewrite (main_unrecognized cvtColor _ img _ _ Hout).
    rewrite (main_unrecognized cvtColor' _ img' _ _ Hout).
    reflexivity.
Qed.
